(** * A per-key fixed-window rate limiter (rate-limiter.go, package dbl)

    Shallow embedding of [RateLimiter] and its four methods, followed by
    the properties of the specification that can be settled on it.

    Modelling choices.
    - Go's [int] is taken at its 64-bit width: a [Z] together with the
      two's complement wrap-around [wrap_int] at the one place where the
      code does arithmetic on it ([e.uses++]).
    - A [time.Time] is an instant of the monotonic clock, counted in
      nanoseconds as a [Z]; a [time.Duration] is a signed 64-bit count of
      nanoseconds, and [time.Sub]/[time.Until] saturate as the Go library
      does.
    - [entries] is a Go map from strings to entry pointers.  The code never
      deletes a key and never replaces the pointer stored under a key, so a
      finite map from keys to entry values, updated in place, carries the
      same information.
    - The methods are run one at a time: the two mutexes are not modelled,
      and nothing else touches an entry while [Wait] sleeps.
    - The clock is part of the state.  [elapse n] is the time that passes
      before the [n]-th reading of the clock; [time.Sleep d] moves the clock
      forward by [d] (when positive), and whatever the sleeper oversleeps is
      part of the next [elapse]. *)

From Stdlib Require Import ZArith Lia.
From stdpp Require Import gmap strings list fin_maps.

Local Open Scope Z_scope.

(** ** Machine integers *)

Definition int_min : Z := - 2 ^ 63.
Definition int_max : Z := 2 ^ 63 - 1.

Definition is_int (z : Z) : Prop := int_min <= z <= int_max.

(** Result of a 64-bit signed operation whose exact value is [z]. *)
Definition wrap_int (z : Z) : Z := (z + 2 ^ 63) mod 2 ^ 64 - 2 ^ 63.

(** ** The fragment of package [time] that the limiter uses *)

Module time.

Definition minDuration : Z := - 2 ^ 63.
Definition maxDuration : Z := 2 ^ 63 - 1.

(** [t.After(u)]: [t] is strictly later than [u]. *)
Definition After (t u : Z) : bool := u <? t.

(** [t.Add(d)]. *)
Definition Add (t d : Z) : Z := t + d.

(** [t.Sub(u)]: the difference, clamped to the range of a Duration. *)
Definition Sub (t u : Z) : Z :=
  if maxDuration <? t - u then maxDuration
  else if t - u <? minDuration then minDuration
  else t - u.

End time.

(** ** Data *)

Record rateLimiterEntry : Type := mkEntry {
  uses      : Z;
  maxUses   : Z;
  recovery  : Z;
  expiresAt : Z
}.

(** The limiter's table ([entries]) together with the clock of the
    process: [clock] is the present instant and [reads] counts the readings
    of the clock made so far. *)
Record World : Type := mkWorld {
  entries : gmap string rateLimiterEntry;
  clock   : Z;
  reads   : nat
}.

(** [rl.entries[key] = e]; also the writes through the pointer that is
    stored under [key]. *)
Definition store (key : string) (e : rateLimiterEntry) (w : World) : World :=
  {| entries := <[key := e]> (entries w); clock := clock w; reads := reads w |}.

(** [NewRateLimiter], in a process whose clock shows [t0]. *)
Definition NewRateLimiter (t0 : Z) : World :=
  {| entries := ∅; clock := t0; reads := 0%nat |}.

(** The window of [e] rolls over at [now]: [e.uses = 1] and
    [e.expiresAt = now.Add(e.recovery)]. *)
Definition rollover (now : Z) (e : rateLimiterEntry) : rateLimiterEntry :=
  {| uses := 1; maxUses := maxUses e; recovery := recovery e;
     expiresAt := time.Add now (recovery e) |}.

(** [e.uses++]. *)
Definition consume (e : rateLimiterEntry) : rateLimiterEntry :=
  {| uses := wrap_int (uses e + 1); maxUses := maxUses e;
     recovery := recovery e; expiresAt := expiresAt e |}.

(** ** A state monad over [World] *)

Definition M (A : Type) : Type := World -> A * World.

Definition ret {A} (a : A) : M A := fun w => (a, w).

Definition bind {A B} (c : M A) (k : A -> M B) : M B :=
  fun w => let (a, w') := c w in k a w'.

Notation "'let*' x ':=' c 'in' k" := (bind c (fun x => k))
  (at level 10, x pattern, c at level 100, k at level 200).

Definition get_entry (key : string) : M (option rateLimiterEntry) :=
  fun w => (entries w !! key, w).

Definition put_entry (key : string) (e : rateLimiterEntry) : M unit :=
  fun w => (tt, store key e w).

(** [n] calls in a row, with their results in order. *)
Fixpoint calls {A} (n : nat) (c : M A) : M (list A) :=
  match n with
  | O => ret []
  | S n' => let* a := c in let* l := calls n' c in ret (a :: l)
  end.

(** ** The limiter *)

Section Limiter.

(** How much time passes before the [n]-th reading of the clock. *)
Variable elapse : nat -> Z.

(** The instant that the next reading of the clock returns. *)
Definition next_now (w : World) : Z := clock w + elapse (reads w).

(** [time.Now()]. *)
Definition time_Now : M Z :=
  fun w => (next_now w,
            {| entries := entries w; clock := next_now w;
               reads := S (reads w) |}).

(** [time.Until(t)]. *)
Definition time_Until (t : Z) : M Z :=
  let* now := time_Now in ret (time.Sub t now).

(** [time.Sleep(d)]: returns at once when [d] is zero or negative. *)
Definition time_Sleep (d : Z) : M unit :=
  fun w => (tt, {| entries := entries w; clock := clock w + Z.max 0 d;
                   reads := reads w |}).

(** [Set] ("SetLimit configures a key's maxUses and recovery time"); the
    name [Set] is reserved here. *)
Definition SetLimit (key : string) (maxUses' recovery' : Z) : M unit :=
  let* e := get_entry key in
  match e with
  | None =>
      let* now := time_Now in
      put_entry key {| uses := 0; maxUses := maxUses'; recovery := recovery';
                       expiresAt := now |}
  | Some e =>
      put_entry key {| uses := uses e; maxUses := maxUses';
                       recovery := recovery'; expiresAt := expiresAt e |}
  end.

Definition Allow (key : string) : M bool :=
  let* e := get_entry key in
  match e with
  | None => ret true
  | Some e =>
      let* now := time_Now in
      if time.After now (expiresAt e) then
        let* _ := put_entry key (rollover now e) in ret true
      else if uses e <? maxUses e then
        let* _ := put_entry key (consume e) in ret true
      else ret false
  end.

(** The [for] loop of [Wait], on the entry [e] found under [key].  [fuel]
    bounds the number of iterations; [None] stands for "still waiting". *)
Fixpoint Wait_loop (fuel : nat) (key : string) (e : rateLimiterEntry)
    (w : World) : option World :=
  match fuel with
  | O => None
  | S fuel' =>
      let (now, w1) := time_Now w in
      if time.After now (expiresAt e) then
        Some (store key (rollover now e) w1)
      else if uses e <? maxUses e then
        Some (store key (consume e) w1)
      else
        let (waitTime, w2) := time_Until (expiresAt e) w1 in
        let (_, w3) := time_Sleep waitTime w2 in
        Wait_loop fuel' key e w3
  end.

Definition Wait (fuel : nat) (key : string) (w : World) : option World :=
  match entries w !! key with
  | None => Some w
  | Some e => Wait_loop fuel key e w
  end.

Definition WaitOrSet (fuel : nat) (key : string) (maxUses' recovery' : Z)
    (w : World) : option World :=
  match entries w !! key with
  | None =>
      let (now, w1) := time_Now w in
      Some (store key {| uses := 1; maxUses := maxUses'; recovery := recovery';
                         expiresAt := time.Add now recovery' |} w1)
  | Some _ => Wait fuel key w
  end.

(** ** Auxiliary notions for the statements *)

(** The world after one reading of the clock. *)
Definition after_read (w : World) : World := snd (time_Now w).

(** The world after one iteration of the loop of [Wait] that ended in
    [time.Sleep]: two readings of the clock, then the sleep. *)
Definition after_denied (e : rateLimiterEntry) (w : World) : World :=
  snd (time_Sleep (time.Sub (expiresAt e) (next_now (after_read w)))
         (after_read (after_read w))).

(** The instant returned by the [i]-th of the coming readings of the clock
    ([i = 0] is the next one), when nobody sleeps in between. *)
Fixpoint nth_now (i : nat) (w : World) : Z :=
  match i with
  | O => next_now w
  | S i' => nth_now i' (after_read w)
  end.

(** [n] calls of [Wait] in a row. *)
Fixpoint waits (n fuel : nat) (key : string) (w : World) : option World :=
  match n with
  | O => Some w
  | S n' =>
      match Wait fuel key w with
      | Some w' => waits n' fuel key w'
      | None => None
      end
  end.

(** The operations of the specification, and sequences of them. *)
Inductive op : Type :=
| Configure (key : string) (m r : Z)
| CheckAllowed (key : string)
| WaitUntilAllowed (key : string)
| WaitOrConfigureThenConsume (key : string) (m r : Z).

Definition step (fuel : nat) (o : op) (w : World) : option World :=
  match o with
  | Configure key m r => Some (snd (SetLimit key m r w))
  | CheckAllowed key => Some (snd (Allow key w))
  | WaitUntilAllowed key => Wait fuel key w
  | WaitOrConfigureThenConsume key m r => WaitOrSet fuel key m r w
  end.

Fixpoint run (fuel : nat) (ops : list op) (w : World) : option World :=
  match ops with
  | [] => Some w
  | o :: ops' =>
      match step fuel o w with
      | Some w' => run fuel ops' w'
      | None => None
      end
  end.

(** An operation that keeps quotas meaningful: the [maxUses] it passes
    is a positive [int], and [Configure] does not push the quota of an
    existing entry below what the entry has already used. *)
Definition sane_op (o : op) (w : World) : Prop :=
  match o with
  | Configure key m r =>
      1 <= m <= int_max /\
      match entries w !! key with
      | Some e => uses e <= m
      | None => True
      end
  | WaitOrConfigureThenConsume key m r => 1 <= m <= int_max
  | CheckAllowed _ | WaitUntilAllowed _ => True
  end.

Fixpoint sane_run (fuel : nat) (ops : list op) (w : World) : Prop :=
  match ops with
  | [] => True
  | o :: ops' =>
      sane_op o w /\
      match step fuel o w with
      | Some w' => sane_run fuel ops' w'
      | None => True
      end
  end.

End Limiter.

(** The invariant of the specification on one entry. *)
Definition within_quota (e : rateLimiterEntry) : Prop :=
  0 <= uses e <= maxUses e.

(** The same together with what makes it inductive. *)
Definition entry_ok (e : rateLimiterEntry) : Prop :=
  0 <= uses e <= maxUses e /\ 1 <= maxUses e <= int_max.

(** What holds of an entry under any configuration that type-checks. *)
Definition entry_typed (e : rateLimiterEntry) : Prop :=
  0 <= uses e /\ maxUses e <= int_max.

(** The [maxUses] that an operation passes fits an [int]. *)
Definition int_op (o : op) : Prop :=
  match o with
  | Configure _ m _ | WaitOrConfigureThenConsume _ m _ => m <= int_max
  | CheckAllowed _ | WaitUntilAllowed _ => True
  end.

Definition all_entries (P : rateLimiterEntry -> Prop) (w : World) : Prop :=
  forall key e, entries w !! key = Some e -> P e.

(** The key an operation works on. *)
Definition op_key (o : op) : string :=
  match o with
  | Configure key _ _ | CheckAllowed key | WaitUntilAllowed key
  | WaitOrConfigureThenConsume key _ _ => key
  end.

(** The operations that store an entry under a key that has none. *)
Definition creates (o : op) : bool :=
  match o with
  | Configure _ _ _ | WaitOrConfigureThenConsume _ _ _ => true
  | CheckAllowed _ | WaitUntilAllowed _ => false
  end.

(** The keys that a sequence of operations may create entries for. *)
Fixpoint created (ops : list op) : gset string :=
  match ops with
  | [] => ∅
  | o :: ops' => (if creates o then {[ op_key o ]} else ∅) ∪ created ops'
  end.

(** [o] is a [Configure] of [key]. *)
Definition configures (key : string) (o : op) : Prop :=
  match o with
  | Configure key' _ _ => key' = key
  | _ => False
  end.

(** ** Concrete clocks and worlds used in the examples *)

(** A clock that advances by one nanosecond per reading. *)
Definition steady : nat -> Z := fun _ => 1.

(** A clock that advances by a microsecond per reading. *)
Definition leap : nat -> Z := fun _ => 1000.

(** A clock whose third reading (number 2) comes 100ns after the second. *)
Definition late_third : nat -> Z :=
  fun n => match n with 2%nat => 100 | _ => 1 end.

(** [Set("k", 1, 100)] on a new limiter, then one [Allow("k")]: the quota of
    one use is spent and the window ends at instant 102. *)
Definition w_spent : World :=
  snd (Allow late_third "k"
         (snd (SetLimit late_third "k" 1 100 (NewRateLimiter 0)))).

(** [Set("k", 0, 100)] on a new limiter: a quota of zero uses. *)
Definition w_zero : World :=
  snd (SetLimit steady "k" 0 100 (NewRateLimiter 0)).

(** [Set("k", 2, 100)] on a new limiter. *)
Definition w_two : World :=
  snd (SetLimit steady "k" 2 100 (NewRateLimiter 0)).

(** A clock that has stopped, and a world in which it shows exactly the
    instant at which the window of "k" ends, with the quota spent. *)
Definition stopped : nat -> Z := fun _ => 0.

Definition w_at_expiry : World :=
  {| entries := {[ "k"%string :=
                   {| uses := 1; maxUses := 1; recovery := 100;
                      expiresAt := 102 |} ]};
     clock := 102; reads := 0%nat |}.

(** A clock that stands still for its first three readings and then
    advances by one nanosecond per reading. *)
Definition burst_clock : nat -> Z :=
  fun n => match n with 0%nat | 1%nat | 2%nat => 0 | _ => 1 end.

(** The example of the specification, in milliseconds: the limiter is
    configured at instant -1, and the clock is then read at 0, 1, 2 and
    101. *)
Definition example_clock : nat -> Z :=
  fun n => match n with 0%nat => 0 | 4%nat => 99 | _ => 1 end.

Definition w_example : World :=
  snd (SetLimit example_clock "k" 2 100 (NewRateLimiter (-1))).

(** * Properties *)

(** ** Unfolding the operations *)

Section Equations.

Variable elapse : nat -> Z.

Lemma entries_after_read w : entries (after_read elapse w) = entries w.
Proof. reflexivity. Qed.

Lemma clock_after_read w : clock (after_read elapse w) = next_now elapse w.
Proof. reflexivity. Qed.

Lemma lookup_store key e w : entries (store key e w) !! key = Some e.
Proof. unfold store; simpl. apply lookup_insert_eq. Qed.

Lemma lookup_store_ne key k' e w :
  key <> k' -> entries (store key e w) !! k' = entries w !! k'.
Proof. intros Hne. unfold store; simpl. by apply lookup_insert_ne. Qed.

Lemma Allow_absent key w :
  entries w !! key = None -> Allow elapse key w = (true, w).
Proof. intros H. unfold Allow, bind, get_entry. by rewrite H. Qed.

Lemma Allow_present key w e :
  entries w !! key = Some e ->
  Allow elapse key w =
    if expiresAt e <? next_now elapse w then
      (true, store key (rollover (next_now elapse w) e) (after_read elapse w))
    else if uses e <? maxUses e then
      (true, store key (consume e) (after_read elapse w))
    else (false, after_read elapse w).
Proof.
  intros H. unfold Allow, bind, get_entry. rewrite H. simpl.
  unfold time.After.
  destruct (expiresAt e <? next_now elapse w); [reflexivity|].
  destruct (uses e <? maxUses e); reflexivity.
Qed.

Lemma Wait_loop_S fuel key e w :
  Wait_loop elapse (S fuel) key e w =
    if expiresAt e <? next_now elapse w then
      Some (store key (rollover (next_now elapse w) e) (after_read elapse w))
    else if uses e <? maxUses e then
      Some (store key (consume e) (after_read elapse w))
    else Wait_loop elapse fuel key e (after_denied elapse e w).
Proof. reflexivity. Qed.

Lemma SetLimit_absent key m r w :
  entries w !! key = None ->
  SetLimit elapse key m r w =
    (tt, store key {| uses := 0; maxUses := m; recovery := r;
                      expiresAt := next_now elapse w |} (after_read elapse w)).
Proof. intros H. unfold SetLimit, bind, get_entry. by rewrite H. Qed.

Lemma SetLimit_present key m r w e :
  entries w !! key = Some e ->
  SetLimit elapse key m r w =
    (tt, store key {| uses := uses e; maxUses := m; recovery := r;
                      expiresAt := expiresAt e |} w).
Proof. intros H. unfold SetLimit, bind, get_entry. by rewrite H. Qed.

Lemma wrap_int_id z : is_int z -> wrap_int z = z.
Proof.
  unfold is_int, int_min, int_max, wrap_int. intros H.
  rewrite Z.mod_small; lia.
Qed.

End Equations.

(** ** Lazy reset of the window *)

Section Window.

Variable elapse : nat -> Z.

(** C10.  When the clock reading is strictly after [expiresAt], [Allow]
    grants without looking at the quota: it returns true and leaves the
    entry with [uses = 1] and [expiresAt = now + recovery], whatever [uses]
    and [maxUses] were; the first iteration of [Wait] does the same. *)
Theorem expired_entry_is_granted key w e :
  entries w !! key = Some e ->
  expiresAt e < next_now elapse w ->
  fst (Allow elapse key w) = true /\
  entries (snd (Allow elapse key w)) !! key =
    Some {| uses := 1; maxUses := maxUses e; recovery := recovery e;
            expiresAt := next_now elapse w + recovery e |} /\
  forall fuel, Wait elapse (S fuel) key w = Some (snd (Allow elapse key w)).
Proof.
  intros Hk Hlt.
  assert (Hb : (expiresAt e <? next_now elapse w) = true) by (apply Z.ltb_lt; lia).
  rewrite (Allow_present elapse key w e Hk), Hb. simpl.
  split; [reflexivity|]. split.
  - apply lookup_insert_eq.
  - intros fuel. unfold Wait. rewrite Hk, Wait_loop_S, Hb. reflexivity.
Qed.

(** C1, as stated, fails: a call that reads the clock at exactly
    [expiresAt] with the quota spent is denied. *)
Lemma reset_at_expiry_instant_fails :
  ~ (forall (el : nat -> Z) key w e,
       entries w !! key = Some e ->
       uses e = maxUses e ->
       expiresAt e <= next_now el w ->
       fst (Allow el key w) = true).
Proof.
  intros H.
  specialize (H late_third "k"%string w_spent
                {| uses := 1; maxUses := 1; recovery := 100; expiresAt := 102 |}).
  assert (Hf : fst (Allow late_third "k" w_spent) = false) by (vm_compute; reflexivity).
  rewrite H in Hf; [discriminate| reflexivity | reflexivity |].
  vm_compute. discriminate.
Qed.

(** C1, amended.  With the quota spent ([uses = maxUses]), [Allow] opens a
    new window exactly when it reads the clock strictly after [expiresAt]:
    then it returns true with [uses = 1] and [expiresAt = now + recovery];
    at [expiresAt] or before, it returns false and the entry is as it
    was. *)
Theorem Allow_resets_strictly_after_expiry key w e :
  entries w !! key = Some e ->
  uses e = maxUses e ->
  (expiresAt e < next_now elapse w ->
     fst (Allow elapse key w) = true /\
     entries (snd (Allow elapse key w)) !! key =
       Some {| uses := 1; maxUses := maxUses e; recovery := recovery e;
               expiresAt := next_now elapse w + recovery e |}) /\
  (next_now elapse w <= expiresAt e ->
     fst (Allow elapse key w) = false /\
     entries (snd (Allow elapse key w)) !! key = Some e).
Proof.
  intros Hk Hu. rewrite (Allow_present elapse key w e Hk). split.
  - intros Hlt.
    assert (Hb : (expiresAt e <? next_now elapse w) = true) by (apply Z.ltb_lt; lia).
    rewrite Hb. split; [reflexivity | apply lookup_insert_eq].
  - intros Hle.
    assert (Hb : (expiresAt e <? next_now elapse w) = false) by (apply Z.ltb_ge; lia).
    assert (Hq : (uses e <? maxUses e) = false) by (apply Z.ltb_ge; lia).
    rewrite Hb, Hq. split; [reflexivity | exact Hk].
Qed.

End Window.

Lemma expired_entry_is_granted_witness :
  fst (Allow steady "k" w_zero) = true /\
  entries (snd (Allow steady "k" w_zero)) !! "k" =
    Some {| uses := 1; maxUses := 0; recovery := 100; expiresAt := 102 |}.
Proof.
  destruct (expired_entry_is_granted steady "k" w_zero
              {| uses := 0; maxUses := 0; recovery := 100; expiresAt := 1 |})
    as (H1 & H2 & _).
  - reflexivity.
  - vm_compute. reflexivity.
  - split; [exact H1 | exact H2].
Defined.

Lemma Allow_resets_strictly_after_expiry_witness :
  (fst (Allow leap "k" w_spent) = true /\
   entries (snd (Allow leap "k" w_spent)) !! "k" =
     Some {| uses := 1; maxUses := 1; recovery := 100; expiresAt := 1102 |}) /\
  (fst (Allow late_third "k" w_spent) = false /\
   entries (snd (Allow late_third "k" w_spent)) !! "k" =
     Some {| uses := 1; maxUses := 1; recovery := 100; expiresAt := 102 |}).
Proof.
  split.
  - destruct (Allow_resets_strictly_after_expiry leap "k" w_spent
                {| uses := 1; maxUses := 1; recovery := 100; expiresAt := 102 |})
      as [H _]; [reflexivity | reflexivity |].
    apply H. vm_compute. reflexivity.
  - destruct (Allow_resets_strictly_after_expiry late_third "k" w_spent
                {| uses := 1; maxUses := 1; recovery := 100; expiresAt := 102 |})
      as [_ H]; [reflexivity | reflexivity |].
    apply H. vm_compute. discriminate.
Defined.

(** ** What [Wait] leaves behind *)

Section WaitResult.

Variable elapse : nat -> Z.

(** When the loop returns, it has either rolled the window over at a
    reading strictly after [expiresAt], or consumed one use that was still
    available; nothing else in the table has changed. *)
Lemma Wait_loop_result fuel key e w w' :
  Wait_loop elapse fuel key e w = Some w' ->
  exists w0, entries w0 = entries w /\
    ((expiresAt e < clock w0 /\ w' = store key (rollover (clock w0) e) w0) \/
     (clock w0 <= expiresAt e /\ uses e < maxUses e /\
      w' = store key (consume e) w0)).
Proof.
  revert w. induction fuel as [|fuel IH]; intros w; [discriminate|].
  rewrite Wait_loop_S.
  destruct (expiresAt e <? next_now elapse w) eqn:Hexp.
  - intros [= <-]. exists (after_read elapse w). split; [reflexivity|].
    left. split; [|reflexivity]. apply Z.ltb_lt in Hexp. exact Hexp.
  - destruct (uses e <? maxUses e) eqn:Hq.
    + intros [= <-]. exists (after_read elapse w). split; [reflexivity|].
      right. apply Z.ltb_ge in Hexp. apply Z.ltb_lt in Hq.
      repeat split; assumption.
    + intros H. apply IH in H. destruct H as (w0 & Hent & Hcase).
      exists w0. split; [exact Hent | exact Hcase].
Qed.

Lemma Wait_loop_more_fuel fuel key e w w' :
  Wait_loop elapse fuel key e w = Some w' ->
  Wait_loop elapse (S fuel) key e w = Some w'.
Proof.
  revert w. induction fuel as [|fuel IH]; intros w; [discriminate|].
  rewrite (Wait_loop_S elapse (S fuel)), (Wait_loop_S elapse fuel).
  destruct (expiresAt e <? next_now elapse w); [tauto|].
  destruct (uses e <? maxUses e); [tauto|]. apply IH.
Qed.

End WaitResult.

(** ** The table *)

Section Table.

Variable elapse : nat -> Z.

(** C8.  [Set] on an absent key creates the entry with [uses = 0] and
    [expiresAt = now]; on a present key it replaces [maxUses] and
    [recovery] and keeps [uses] and [expiresAt] (the clock is not even
    read); entries under other keys are untouched. *)
Theorem SetLimit_upsert key m r w :
  (entries w !! key = None ->
     entries (snd (SetLimit elapse key m r w)) !! key =
       Some {| uses := 0; maxUses := m; recovery := r;
               expiresAt := next_now elapse w |}) /\
  (forall e, entries w !! key = Some e ->
     entries (snd (SetLimit elapse key m r w)) !! key =
       Some {| uses := uses e; maxUses := m; recovery := r;
               expiresAt := expiresAt e |} /\
     clock (snd (SetLimit elapse key m r w)) = clock w) /\
  (forall k', key <> k' ->
     entries (snd (SetLimit elapse key m r w)) !! k' = entries w !! k').
Proof.
  split; [|split].
  - intros H. rewrite (SetLimit_absent elapse key m r w H). apply lookup_store.
  - intros e H. rewrite (SetLimit_present elapse key m r w e H).
    split; [apply lookup_store | reflexivity].
  - intros k' Hne. destruct (entries w !! key) as [e|] eqn:H.
    + rewrite (SetLimit_present elapse key m r w e H).
      apply (lookup_store_ne key k' _ w Hne).
    + rewrite (SetLimit_absent elapse key m r w H).
      apply (lookup_store_ne key k' _ (after_read elapse w) Hne).
Qed.

(** C9.  On a key that is not in the table, any number of [Allow] calls
    all return true, any number of [Wait] calls return without a single
    iteration of the loop, and the world (table and clock) is left as it
    was. *)
Theorem absent_key_is_unlimited key w n fuel :
  entries w !! key = None ->
  calls n (Allow elapse key) w = (replicate n true, w) /\
  waits elapse n fuel key w = Some w.
Proof.
  intros H. split.
  - induction n as [|n IH]; [reflexivity|].
    simpl. unfold bind at 1. rewrite (Allow_absent elapse key w H).
    unfold bind at 1. rewrite IH. reflexivity.
  - induction n as [|n IH]; [reflexivity|].
    simpl. unfold Wait. rewrite H. exact IH.
Qed.

(** C6.  [WaitOrSet] on an absent key returns without entering the wait
    loop (any [fuel], even none), having read the clock once, and leaves
    the entry with [uses = 1] and [expiresAt = now + recovery]. *)
Theorem WaitOrSet_on_absent_key key m r w fuel :
  entries w !! key = None ->
  exists w',
    WaitOrSet elapse fuel key m r w = Some w' /\
    entries w' !! key =
      Some {| uses := 1; maxUses := m; recovery := r;
              expiresAt := next_now elapse w + r |} /\
    clock w' = next_now elapse w /\
    reads w' = S (reads w).
Proof.
  intros H. unfold WaitOrSet. rewrite H. simpl.
  eexists. split; [reflexivity|].
  split; [apply lookup_store|]. split; reflexivity.
Qed.

(** C7.  [WaitOrSet] on a present key is [Wait] on that key, whatever
    [maxUses] and [recovery] it is passed; when it returns, the entry still
    has the [maxUses] and [recovery] it had. *)
Theorem WaitOrSet_on_present_key key m r w e fuel :
  entries w !! key = Some e ->
  WaitOrSet elapse fuel key m r w = Wait elapse fuel key w /\
  forall w', WaitOrSet elapse fuel key m r w = Some w' ->
    exists e', entries w' !! key = Some e' /\
      maxUses e' = maxUses e /\ recovery e' = recovery e.
Proof.
  intros H. unfold WaitOrSet. rewrite H. split; [reflexivity|].
  intros w'. unfold Wait. rewrite H. intros Hw.
  apply Wait_loop_result in Hw. destruct Hw as (w0 & _ & [[_ ->] | (_ & _ & ->)]).
  - exists (rollover (clock w0) e). split; [apply lookup_store|]. split; reflexivity.
  - exists (consume e). split; [apply lookup_store|]. split; reflexivity.
Qed.

(** C2, as stated, fails: after [Set("k", 0, 100)] the next [Allow("k")]
    reads the clock after [expiresAt] and is granted. *)
Lemma nonpositive_quota_is_granted_once :
  ~ (forall (el : nat -> Z) key w e,
       entries w !! key = Some e ->
       maxUses e <= 0 ->
       fst (Allow el key w) = false).
Proof.
  intros H.
  specialize (H steady "k"%string w_zero
                {| uses := 0; maxUses := 0; recovery := 100; expiresAt := 1 |}).
  assert (Ht : fst (Allow steady "k" w_zero) = true) by (vm_compute; reflexivity).
  rewrite H in Ht; [discriminate | reflexivity |]. simpl. lia.
Qed.

(** C2, amended.  With [maxUses <= 0] (and [uses >= 0], as in every entry
    the operations produce), [Allow] returns false exactly when it reads
    the clock at [expiresAt] or before, and then leaves the entry as it
    was; read strictly after [expiresAt], it returns true and rolls the
    window over. *)
Theorem nonpositive_quota_denies_inside_window key w e :
  entries w !! key = Some e ->
  maxUses e <= 0 ->
  0 <= uses e ->
  fst (Allow elapse key w) = (expiresAt e <? next_now elapse w) /\
  entries (snd (Allow elapse key w)) !! key =
    Some (if expiresAt e <? next_now elapse w
          then rollover (next_now elapse w) e else e).
Proof.
  intros Hk Hm Hu. rewrite (Allow_present elapse key w e Hk).
  destruct (expiresAt e <? next_now elapse w).
  - split; [reflexivity | apply lookup_store].
  - assert (Hq : (uses e <? maxUses e) = false) by (apply Z.ltb_ge; lia).
    rewrite Hq. split; [reflexivity | exact Hk].
Qed.

End Table.

Lemma SetLimit_upsert_witness :
  entries (snd (SetLimit steady "k" 2 100 (NewRateLimiter 0))) !! "k" =
    Some {| uses := 0; maxUses := 2; recovery := 100; expiresAt := 1 |} /\
  entries (snd (SetLimit late_third "k" 5 7 w_spent)) !! "k" =
    Some {| uses := 1; maxUses := 5; recovery := 7; expiresAt := 102 |} /\
  entries (snd (SetLimit late_third "j" 5 7 w_spent)) !! "k" =
    entries w_spent !! "k".
Proof.
  split; [|split].
  - apply (SetLimit_upsert steady "k" 2 100 (NewRateLimiter 0)). reflexivity.
  - destruct (SetLimit_upsert late_third "k" 5 7 w_spent) as (_ & H & _).
    destruct (H {| uses := 1; maxUses := 1; recovery := 100; expiresAt := 102 |})
      as [H1 _]; [reflexivity | exact H1].
  - destruct (SetLimit_upsert late_third "j" 5 7 w_spent) as (_ & _ & H).
    apply H. discriminate.
Defined.

Lemma absent_key_is_unlimited_witness :
  calls 3 (Allow steady "other") w_two = ([true; true; true], w_two) /\
  waits steady 3 0 "other" w_two = Some w_two.
Proof.
  apply (absent_key_is_unlimited steady "other" w_two 3 0). reflexivity.
Defined.

Lemma WaitOrSet_on_absent_key_witness :
  exists w',
    WaitOrSet steady 0 "k" 1 100 (NewRateLimiter 0) = Some w' /\
    entries w' !! "k" =
      Some {| uses := 1; maxUses := 1; recovery := 100; expiresAt := 101 |} /\
    clock w' = 1 /\ reads w' = 1%nat.
Proof.
  apply (WaitOrSet_on_absent_key steady "k" 1 100 (NewRateLimiter 0) 0).
  reflexivity.
Defined.

Lemma WaitOrSet_on_present_key_witness :
  WaitOrSet late_third 5 "k" 9 9 w_spent = Wait late_third 5 "k" w_spent /\
  forall w', WaitOrSet late_third 5 "k" 9 9 w_spent = Some w' ->
    exists e', entries w' !! "k" = Some e' /\
      maxUses e' = 1 /\ recovery e' = 100.
Proof.
  apply (WaitOrSet_on_present_key late_third "k" 9 9 w_spent
           {| uses := 1; maxUses := 1; recovery := 100; expiresAt := 102 |} 5).
  reflexivity.
Defined.

Lemma nonpositive_quota_denies_inside_window_witness :
  fst (Allow (fun _ => 0) "k" w_zero) = false /\
  entries (snd (Allow (fun _ => 0) "k" w_zero)) !! "k" =
    Some {| uses := 0; maxUses := 0; recovery := 100; expiresAt := 1 |}.
Proof.
  apply (nonpositive_quota_denies_inside_window (fun _ => 0) "k" w_zero
           {| uses := 0; maxUses := 0; recovery := 100; expiresAt := 1 |}).
  - reflexivity.
  - simpl. lia.
  - simpl. lia.
Defined.

(** ** Spending the quota of one window *)

Section Quota.

Variable elapse : nat -> Z.

Lemma calls_S {A} (c : M A) n w :
  fst (calls (S n) c w) = fst (c w) :: fst (calls n c (snd (c w))).
Proof.
  simpl. unfold bind. destruct (c w) as [a w1]. simpl.
  destruct (calls n c w1) as [l w2]. reflexivity.
Qed.

(** The coming readings depend on the clock only. *)
Lemma nth_now_ext i w1 w2 :
  clock w1 = clock w2 -> reads w1 = reads w2 ->
  nth_now elapse i w1 = nth_now elapse i w2.
Proof.
  revert w1 w2. induction i as [|i IH]; intros w1 w2 Hc Hr; simpl.
  - unfold next_now. by rewrite Hc, Hr.
  - apply IH; simpl; unfold next_now; by rewrite ?Hc, ?Hr.
Qed.

(** [Allow] on a present key reads the clock once and never sleeps. *)
Lemma Allow_present_clock key w e :
  entries w !! key = Some e ->
  clock (snd (Allow elapse key w)) = next_now elapse w /\
  reads (snd (Allow elapse key w)) = S (reads w).
Proof.
  intros H. rewrite (Allow_present elapse key w e H).
  destruct (expiresAt e <? next_now elapse w); [split; reflexivity|].
  destruct (uses e <? maxUses e); split; reflexivity.
Qed.

Lemma nth_now_after_Allow key w e i :
  entries w !! key = Some e ->
  nth_now elapse i (snd (Allow elapse key w)) = nth_now elapse (S i) w.
Proof.
  intros H. simpl. destruct (Allow_present_clock key w e H) as [Hc Hr].
  apply nth_now_ext; [exact Hc | exact Hr].
Qed.

(** Inside a window, with [k] uses left, [k] calls are granted and the
    next one is denied. *)
Lemma rest_of_window key (k : nat) : forall w e,
  entries w !! key = Some e ->
  maxUses e - uses e = Z.of_nat k ->
  int_min <= uses e ->
  maxUses e <= int_max ->
  (forall i, (i <= k)%nat -> nth_now elapse i w <= expiresAt e) ->
  fst (calls (S k) (Allow elapse key) w) = replicate k true ++ [false].
Proof.
  induction k as [|k IH]; intros w e Hk Hleft Hlo Hhi Hin.
  - rewrite calls_S. simpl.
    rewrite (Allow_present elapse key w e Hk).
    assert (Hb : (expiresAt e <? next_now elapse w) = false).
    { apply Z.ltb_ge. apply (Hin 0%nat). lia. }
    assert (Hq : (uses e <? maxUses e) = false) by (apply Z.ltb_ge; lia).
    rewrite Hb, Hq. reflexivity.
  - rewrite calls_S.
    assert (Hb : (expiresAt e <? next_now elapse w) = false).
    { apply Z.ltb_ge. apply (Hin 0%nat). lia. }
    assert (Hq : (uses e <? maxUses e) = true) by (apply Z.ltb_lt; lia).
    assert (Hw : wrap_int (uses e + 1) = uses e + 1).
    { apply wrap_int_id. unfold is_int. lia. }
    pose proof (Allow_present elapse key w e Hk) as HA. rewrite Hb, Hq in HA.
    assert (Hk' : entries (snd (Allow elapse key w)) !! key = Some (consume e)).
    { rewrite HA. apply lookup_store. }
    rewrite (IH _ (consume e) Hk').
    + rewrite HA. reflexivity.
    + simpl. rewrite Hw. lia.
    + simpl. rewrite Hw. lia.
    + exact Hhi.
    + intros i Hi. rewrite (nth_now_after_Allow key w e i Hk).
      simpl expiresAt. apply Hin. lia.
Qed.

(** C4.  Take an entry with [maxUses = N >= 1] and [N + 1] calls of
    [Allow] that fall into one window: either the first call opens the
    window (it reads the clock after [expiresAt]) and the other [N] read it
    no later than the new [expiresAt], or no use has been made yet and all
    [N + 1] read it no later than [expiresAt].  Then the first [N] calls
    return true and the last returns false.  This holds for any [recovery],
    in particular a positive one. *)
Theorem first_N_granted_next_denied key w e :
  entries w !! key = Some e ->
  1 <= maxUses e <= int_max ->
  (expiresAt e < next_now elapse w /\
   forall i, (1 <= i <= Z.to_nat (maxUses e))%nat ->
     nth_now elapse i w <= next_now elapse w + recovery e) \/
  (uses e = 0 /\
   forall i, (i <= Z.to_nat (maxUses e))%nat ->
     nth_now elapse i w <= expiresAt e) ->
  fst (calls (S (Z.to_nat (maxUses e))) (Allow elapse key) w) =
    replicate (Z.to_nat (maxUses e)) true ++ [false].
Proof.
  intros Hk HN [[Hexp Hin] | [Hu Hin]].
  - destruct (Z.to_nat (maxUses e)) as [|n] eqn:HNn; [lia|].
    rewrite calls_S.
    assert (Hb : (expiresAt e <? next_now elapse w) = true) by (apply Z.ltb_lt; lia).
    pose proof (Allow_present elapse key w e Hk) as HA. rewrite Hb in HA.
    assert (Hk' : entries (snd (Allow elapse key w)) !! key =
                  Some (rollover (next_now elapse w) e)).
    { rewrite HA. apply lookup_store. }
    rewrite (rest_of_window key n _ _ Hk').
    + rewrite HA. reflexivity.
    + simpl. lia.
    + simpl. unfold int_min. lia.
    + simpl. lia.
    + intros i Hi. rewrite (nth_now_after_Allow key w e i Hk).
      simpl expiresAt. unfold time.Add. apply Hin. lia.
  - apply (rest_of_window key _ w e Hk); [lia | unfold int_min; lia | lia | exact Hin].
Qed.

End Quota.

Lemma first_N_granted_next_denied_witness :
  fst (calls 3 (Allow steady "k") w_two) = [true; true; false].
Proof.
  apply (first_N_granted_next_denied steady "k" w_two
           {| uses := 0; maxUses := 2; recovery := 100; expiresAt := 1 |}).
  - reflexivity.
  - simpl. unfold int_max. lia.
  - left. split.
    + vm_compute. reflexivity.
    + intros i Hi. simpl in Hi.
      destruct i as [|[|[|i]]]; [lia | | | lia]; vm_compute; discriminate.
Defined.

(** The example of the specification: with [maxUses = 2] and
    [recovery = 100], calls at 0, 1, 2 and 101 return true, true, false,
    true, and the last one leaves one use of the new window. *)
Example spec_example :
  fst (calls 4 (Allow example_clock "k") w_example) = [true; true; false; true] /\
  entries (snd (calls 4 (Allow example_clock "k") w_example)) !! "k" =
    Some {| uses := 1; maxUses := 2; recovery := 100; expiresAt := 201 |}.
Proof. split; vm_compute; reflexivity. Qed.

(** ** The bounds on [uses] *)

Section Invariant.

Variable elapse : nat -> Z.

Lemma entry_ok_within_quota e : entry_ok e -> within_quota e.
Proof. intros [H _]. exact H. Qed.

Lemma rollover_ok now e : entry_ok e -> entry_ok (rollover now e).
Proof. unfold entry_ok. simpl. lia. Qed.

Lemma consume_ok e : entry_ok e -> uses e < maxUses e -> entry_ok (consume e).
Proof.
  unfold entry_ok. simpl. intros H Hlt.
  rewrite wrap_int_id; [lia|]. unfold is_int, int_min. lia.
Qed.

Lemma all_entries_store (P : rateLimiterEntry -> Prop) key e w0 w :
  entries w0 = entries w ->
  all_entries P w -> P e -> all_entries P (store key e w0).
Proof.
  intros Heq Hall He k' e'. destruct (decide (key = k')) as [<-|Hne].
  - rewrite lookup_store. intros [= <-]. exact He.
  - rewrite (lookup_store_ne key k' e w0 Hne), Heq. apply Hall.
Qed.

Lemma Allow_keeps_entry_ok key w :
  all_entries entry_ok w -> all_entries entry_ok (snd (Allow elapse key w)).
Proof.
  intros Hall. destruct (entries w !! key) as [e|] eqn:Hk.
  - rewrite (Allow_present elapse key w e Hk).
    pose proof (Hall key e Hk) as He.
    destruct (expiresAt e <? next_now elapse w).
    + apply (all_entries_store _ _ _ _ w); [reflexivity | exact Hall |].
      by apply rollover_ok.
    + destruct (uses e <? maxUses e) eqn:Hq.
      * apply (all_entries_store _ _ _ _ w); [reflexivity | exact Hall |].
        apply consume_ok; [exact He | by apply Z.ltb_lt].
      * exact Hall.
  - by rewrite (Allow_absent elapse key w Hk).
Qed.

Lemma Wait_keeps_entry_ok fuel key w w' :
  all_entries entry_ok w ->
  Wait elapse fuel key w = Some w' ->
  all_entries entry_ok w'.
Proof.
  intros Hall. unfold Wait. destruct (entries w !! key) as [e|] eqn:Hk.
  - intros Hw. pose proof (Hall key e Hk) as He.
    apply Wait_loop_result in Hw.
    destruct Hw as (w0 & Heq & [[_ ->] | (_ & Hlt & ->)]).
    + apply (all_entries_store _ _ _ _ w); [exact Heq | exact Hall |].
      by apply rollover_ok.
    + apply (all_entries_store _ _ _ _ w); [exact Heq | exact Hall |].
      by apply consume_ok.
  - by intros [= <-].
Qed.

Lemma step_keeps_entry_ok fuel o w w' :
  all_entries entry_ok w ->
  sane_op o w ->
  step elapse fuel o w = Some w' ->
  all_entries entry_ok w'.
Proof.
  intros Hall Hsane. destruct o as [key m r | key | key | key m r]; simpl.
  - intros [= <-]. simpl in Hsane. destruct Hsane as [Hm Hu].
    destruct (entries w !! key) as [e|] eqn:Hk.
    + rewrite (SetLimit_present elapse key m r w e Hk).
      apply (all_entries_store _ _ _ _ w); [reflexivity | exact Hall |].
      destruct (Hall key e Hk) as [He _]. unfold entry_ok. simpl. lia.
    + rewrite (SetLimit_absent elapse key m r w Hk).
      apply (all_entries_store _ _ _ _ w); [reflexivity | exact Hall |].
      unfold entry_ok. simpl. lia.
  - intros [= <-]. by apply Allow_keeps_entry_ok.
  - by apply Wait_keeps_entry_ok.
  - simpl in Hsane. unfold WaitOrSet.
    destruct (entries w !! key) as [e|] eqn:Hk.
    + by apply Wait_keeps_entry_ok.
    + simpl. intros [= <-].
      apply (all_entries_store _ _ _ _ w); [reflexivity | exact Hall |].
      unfold entry_ok. simpl. lia.
Qed.

(** C3, as stated, fails: [Set("k", 0, 100)] followed by [Allow("k")]
    leaves [uses = 1] above [maxUses = 0]. *)
Lemma uses_can_exceed_maxUses :
  ~ (forall (el : nat -> Z) fuel ops t0 w',
       run el fuel ops (NewRateLimiter t0) = Some w' ->
       all_entries within_quota w').
Proof.
  intros H.
  specialize (H steady 0%nat [Configure "k" 0 100; CheckAllowed "k"] 0
                (snd (Allow steady "k" w_zero)) eq_refl
                "k"%string
                {| uses := 1; maxUses := 0; recovery := 100; expiresAt := 102 |}
                eq_refl).
  unfold within_quota in H. simpl in H. lia.
Qed.

(** A second way to leave the bounds, with positive quotas only:
    [Configure] below the uses already made. *)
Lemma lowered_quota_is_exceeded :
  exists w' e,
    run steady 0 [Configure "k" 2 100; CheckAllowed "k"; CheckAllowed "k";
                  Configure "k" 1 100] (NewRateLimiter 0) = Some w' /\
    entries w' !! "k" = Some e /\ uses e = 2 /\ maxUses e = 1.
Proof.
  eexists. eexists. split; [reflexivity|].
  split; [vm_compute; reflexivity|]. split; reflexivity.
Qed.

(** C3, amended.  Start from a table whose entries satisfy
    [0 <= uses <= maxUses] with [1 <= maxUses] (an empty table, say), and
    run any sequence of operations in which every [maxUses] passed is a
    positive [int] and no [Configure] sets the quota of an existing entry
    below its current [uses].  Whenever the sequence completes, every entry
    satisfies [0 <= uses <= maxUses]. *)
Theorem uses_within_quota fuel ops : forall w w',
  all_entries entry_ok w ->
  sane_run elapse fuel ops w ->
  run elapse fuel ops w = Some w' ->
  all_entries within_quota w'.
Proof.
  induction ops as [|o ops IH]; intros w w' Hall Hsane Hrun.
  - simpl in Hrun. injection Hrun as <-.
    intros key e Hk. apply entry_ok_within_quota. by apply (Hall key).
  - simpl in Hrun, Hsane. destruct Hsane as [Ho Hrest].
    destruct (step elapse fuel o w) as [w1|] eqn:Hstep; [|discriminate].
    apply (IH w1 w'); [| exact Hrest | exact Hrun].
    by apply (step_keeps_entry_ok fuel o w w1).
Qed.

(** The lower bound alone needs no restriction on the configuration. *)
Lemma step_keeps_entry_typed fuel o w w' :
  all_entries entry_typed w ->
  int_op o ->
  step elapse fuel o w = Some w' ->
  all_entries entry_typed w'.
Proof.
  assert (Hroll : forall now e, entry_typed e -> entry_typed (rollover now e)).
  { unfold entry_typed. simpl. lia. }
  assert (Hcons : forall e, entry_typed e -> uses e < maxUses e ->
                            entry_typed (consume e)).
  { unfold entry_typed. simpl. intros e H Hlt.
    rewrite wrap_int_id; [lia|]. unfold is_int, int_min. lia. }
  assert (HWait : forall key, all_entries entry_typed w ->
            Wait elapse fuel key w = Some w' -> all_entries entry_typed w').
  { intros key Hall. unfold Wait. destruct (entries w !! key) as [e|] eqn:Hk.
    - intros Hw. pose proof (Hall key e Hk) as He.
      apply Wait_loop_result in Hw.
      destruct Hw as (w0 & Heq & [[_ ->] | (_ & Hlt & ->)]);
        apply (all_entries_store _ _ _ _ w); auto.
    - by intros [= <-]. }
  intros Hall Hint. destruct o as [key m r | key | key | key m r]; simpl.
  - intros [= <-]. simpl in Hint.
    destruct (entries w !! key) as [e|] eqn:Hk.
    + rewrite (SetLimit_present elapse key m r w e Hk).
      apply (all_entries_store _ _ _ _ w); [reflexivity | exact Hall |].
      destruct (Hall key e Hk) as [He _]. unfold entry_typed. simpl. lia.
    + rewrite (SetLimit_absent elapse key m r w Hk).
      apply (all_entries_store _ _ _ _ w); [reflexivity | exact Hall |].
      unfold entry_typed. simpl. lia.
  - intros [= <-]. destruct (entries w !! key) as [e|] eqn:Hk.
    + rewrite (Allow_present elapse key w e Hk).
      pose proof (Hall key e Hk) as He.
      destruct (expiresAt e <? next_now elapse w).
      * apply (all_entries_store _ _ _ _ w); auto.
      * destruct (uses e <? maxUses e) eqn:Hq; [|exact Hall].
        apply (all_entries_store _ _ _ _ w); auto.
        apply Hcons; [exact He | by apply Z.ltb_lt].
    + by rewrite (Allow_absent elapse key w Hk).
  - by apply HWait.
  - simpl in Hint. unfold WaitOrSet.
    destruct (entries w !! key) as [e|] eqn:Hk.
    + by apply HWait.
    + simpl. intros [= <-].
      apply (all_entries_store _ _ _ _ w); [reflexivity | exact Hall |].
      unfold entry_typed. simpl. lia.
Qed.

Lemma uses_never_negative fuel ops : forall w w',
  all_entries entry_typed w ->
  Forall int_op ops ->
  run elapse fuel ops w = Some w' ->
  all_entries (fun e => 0 <= uses e) w'.
Proof.
  induction ops as [|o ops IH]; intros w w' Hall Hint Hrun.
  - simpl in Hrun. injection Hrun as <-.
    intros key e Hk. by destruct (Hall key e Hk).
  - simpl in Hrun. inversion Hint as [|? ? Ho Hrest]; subst.
    destruct (step elapse fuel o w) as [w1|] eqn:Hstep; [|discriminate].
    apply (IH w1 w'); [| exact Hrest | exact Hrun].
    by apply (step_keeps_entry_typed fuel o w w1).
Qed.

End Invariant.

Lemma uses_within_quota_witness :
  all_entries within_quota
    (snd (Allow steady "k" (snd (Allow steady "k" w_two)))).
Proof.
  apply (uses_within_quota steady 0
           [Configure "k" 2 100; CheckAllowed "k"; CheckAllowed "k"]
           (NewRateLimiter 0)).
  - intros key e Hk. vm_compute in Hk. discriminate.
  - simpl. unfold int_max. repeat split; lia.
  - reflexivity.
Defined.

(** ** Termination of [Wait] *)

Section Termination.

Variable elapse : nat -> Z.

(** The clock never runs backwards, and it never stops for good. *)
Hypothesis elapse_nonneg : forall n, 0 <= elapse n.
Hypothesis elapse_progress : forall n, exists m, (n <= m)%nat /\ 0 < elapse m.

Lemma next_now_ge w : clock w <= next_now elapse w.
Proof. unfold next_now. pose proof (elapse_nonneg (reads w)). lia. Qed.

Lemma reads_after_denied e w :
  reads (after_denied elapse e w) = S (S (reads w)).
Proof. reflexivity. Qed.

(** A sleep ends at [expiresAt] or later, unless the wait was cut to the
    longest Duration; in that case it lasts that long. *)
Lemma clock_after_denied e w :
  clock w <= clock (after_denied elapse e w) /\
  (expiresAt e <= clock (after_denied elapse e w) \/
   clock w + time.maxDuration <= clock (after_denied elapse e w)).
Proof.
  unfold after_denied, time_Sleep. simpl.
  pose proof (next_now_ge w) as H1.
  pose proof (next_now_ge (after_read elapse w)) as H2.
  rewrite clock_after_read in H2.
  set (now2 := next_now elapse (after_read elapse w)) in *.
  unfold time.Sub, time.maxDuration, time.minDuration.
  destruct (2 ^ 63 - 1 <? expiresAt e - now2) eqn:Hhi.
  - apply Z.ltb_lt in Hhi. lia.
  - apply Z.ltb_ge in Hhi.
    destruct (expiresAt e - now2 <? - 2 ^ 63) eqn:Hlo.
    + apply Z.ltb_lt in Hlo. lia.
    + apply Z.ltb_ge in Hlo. lia.
Qed.

(** Once the clock has passed [expiresAt], the next reading ends the
    loop. *)
Lemma Wait_loop_past_expiry key e w :
  expiresAt e < clock w ->
  exists w', Wait_loop elapse 1 key e w = Some w'.
Proof.
  intros H. rewrite Wait_loop_S.
  assert (Hb : (expiresAt e <? next_now elapse w) = true).
  { apply Z.ltb_lt. pose proof (next_now_ge w). lia. }
  rewrite Hb. eexists. reflexivity.
Qed.

(** Once the clock has reached [expiresAt], the loop ends as soon as the
    clock moves. *)
Lemma Wait_loop_at_expiry key e (d : nat) : forall w,
  expiresAt e <= clock w ->
  0 < elapse (reads w + d) ->
  exists fuel w', Wait_loop elapse fuel key e w = Some w'.
Proof.
  induction d as [d IH] using lt_wf_ind. intros w Hge Hd.
  destruct (expiresAt e <? next_now elapse w) eqn:Hb.
  { exists 1%nat. rewrite Wait_loop_S, Hb. eexists. reflexivity. }
  destruct (uses e <? maxUses e) eqn:Hq.
  { exists 1%nat. rewrite Wait_loop_S, Hb, Hq. eexists. reflexivity. }
  apply Z.ltb_ge in Hb. unfold next_now in Hb.
  pose proof (elapse_nonneg (reads w)) as H0.
  destruct d as [|[|d]].
  - rewrite Nat.add_0_r in Hd. lia.
  - destruct (Wait_loop_past_expiry key e (after_denied elapse e w)) as [w' Hw'].
    + unfold after_denied, time_Sleep. simpl. unfold next_now at 1. simpl.
      replace (S (reads w)) with (reads w + 1)%nat by lia.
      pose proof (next_now_ge w). lia.
    + exists 2%nat, w'. rewrite Wait_loop_S.
      assert (Hb' : (expiresAt e <? next_now elapse w) = false)
        by (apply Z.ltb_ge; unfold next_now; lia).
      rewrite Hb', Hq. exact Hw'.
  - destruct (IH d ltac:(lia) (after_denied elapse e w)) as (fuel & w' & Hw').
    + pose proof (clock_after_denied e w). lia.
    + rewrite reads_after_denied.
      replace (S (S (reads w)) + d)%nat with (reads w + S (S d))%nat by lia.
      exact Hd.
    + exists (S fuel), w'. rewrite Wait_loop_S.
      assert (Hb' : (expiresAt e <? next_now elapse w) = false)
        by (apply Z.ltb_ge; unfold next_now; lia).
      rewrite Hb', Hq. exact Hw'.
Qed.

(** Before [expiresAt], every sleep brings the clock to [expiresAt] or
    one full Duration closer to it. *)
Lemma Wait_loop_before_expiry key e (n : nat) : forall w,
  expiresAt e - clock w <= Z.of_nat n * time.maxDuration ->
  exists fuel w', Wait_loop elapse fuel key e w = Some w'.
Proof.
  induction n as [|n IH]; intros w Hn.
  - destruct (elapse_progress (reads w)) as (m & Hm & Hpos).
    apply (Wait_loop_at_expiry key e (m - reads w) w); [lia|].
    replace (reads w + (m - reads w))%nat with m by lia. exact Hpos.
  - destruct (expiresAt e <? next_now elapse w) eqn:Hb.
    { exists 1%nat. rewrite Wait_loop_S, Hb. eexists. reflexivity. }
    destruct (uses e <? maxUses e) eqn:Hq.
    { exists 1%nat. rewrite Wait_loop_S, Hb, Hq. eexists. reflexivity. }
    destruct (IH (after_denied elapse e w)) as (fuel & w' & Hw').
    + pose proof (clock_after_denied e w) as [_ Hc].
      unfold time.maxDuration in *. lia.
    + exists (S fuel), w'. rewrite Wait_loop_S, Hb, Hq. exact Hw'.
Qed.

Lemma Wait_loop_returns key e w :
  exists fuel w', Wait_loop elapse fuel key e w = Some w'.
Proof.
  apply (Wait_loop_before_expiry key e (Z.to_nat (expiresAt e - clock w))).
  unfold time.maxDuration. nia.
Qed.

Lemma Wait_loop_fuel_le key e w w' (fuel fuel' : nat) :
  (fuel <= fuel')%nat ->
  Wait_loop elapse fuel key e w = Some w' ->
  Wait_loop elapse fuel' key e w = Some w'.
Proof.
  induction 1 as [|fuel' _ IH]; [tauto|].
  intros H. apply Wait_loop_more_fuel. by apply IH.
Qed.

(** C5, amended.  For a waiter that is alone on its key, and with a clock
    that never runs backwards and never stops for good,
    [Wait] on a present key returns: some amount of fuel is enough, and any
    larger amount gives the same result.  If the quota was spent
    ([uses >= maxUses]), it returns at an instant strictly after the
    [expiresAt] it found, having opened a new window with its own use
    consumed ([uses = 1], [expiresAt = now + recovery]).  This holds for
    any [recovery], in particular a positive one. *)
Theorem Wait_returns key w e :
  entries w !! key = Some e ->
  exists fuel w',
    Wait elapse fuel key w = Some w' /\
    (forall fuel', (fuel <= fuel')%nat -> Wait elapse fuel' key w = Some w') /\
    (maxUses e <= uses e ->
       expiresAt e < clock w' /\
       entries w' !! key = Some (rollover (clock w') e)).
Proof.
  intros Hk. destruct (Wait_loop_returns key e w) as (fuel & w' & Hw').
  exists fuel, w'. unfold Wait. rewrite Hk.
  split; [exact Hw'|]. split.
  - intros fuel' Hle. by apply (Wait_loop_fuel_le key e w w' fuel fuel').
  - intros Hspent. apply Wait_loop_result in Hw'.
    destruct Hw' as (w0 & _ & [[Hlt ->] | (_ & Hq & _)]); [|lia].
    split; [exact Hlt | apply lookup_store].
Qed.

End Termination.

(** On a clock that moves only while the caller sleeps, a [Wait] that
    finds the quota spent at or before [expiresAt] keeps waiting: a sleep
    ends at [expiresAt] at the latest, and the test for expiry is strict. *)
Lemma Wait_loop_clock_moved_by_sleep_only key e fuel : forall w,
  maxUses e <= uses e ->
  clock w <= expiresAt e ->
  Wait_loop stopped fuel key e w = None.
Proof.
  induction fuel as [|fuel IH]; intros w Hspent Hc; [reflexivity|].
  assert (Hnow : forall w0, next_now stopped w0 = clock w0).
  { intros w0. unfold next_now, stopped. lia. }
  assert (Hb : (expiresAt e <? next_now stopped w) = false).
  { apply Z.ltb_ge. rewrite Hnow. exact Hc. }
  assert (Hq : (uses e <? maxUses e) = false) by (apply Z.ltb_ge; lia).
  rewrite Wait_loop_S, Hb, Hq. apply IH; [exact Hspent|].
  unfold after_denied, time_Sleep. simpl. rewrite !Hnow. simpl.
  rewrite Hnow.
  unfold time.Sub, time.maxDuration, time.minDuration.
  destruct (2 ^ 63 - 1 <? expiresAt e - clock w) eqn:Hhi.
  - apply Z.ltb_lt in Hhi. lia.
  - destruct (expiresAt e - clock w <? - 2 ^ 63) eqn:Hlo.
    + apply Z.ltb_lt in Hlo. lia.
    + lia.
Qed.

(** C5, as stated, fails: a positive [recovery] does not make [Wait]
    return.  After [Set("k", 1, 100)] and one [Allow("k")] the quota is
    spent and the window ends at 102; if the clock then moves only by the
    sleep of the waiter, [Wait("k")] sleeps until 102, finds that 102 is
    not after 102, and from there on sleeps for no time at all, for
    ever. *)
Lemma Wait_can_wait_for_ever :
  ~ (forall (el : nat -> Z) key w e,
       entries w !! key = Some e ->
       0 < recovery e ->
       exists fuel w', Wait el fuel key w = Some w').
Proof.
  intros H.
  destruct (H stopped "k"%string w_spent
              {| uses := 1; maxUses := 1; recovery := 100; expiresAt := 102 |})
    as (fuel & w' & Hw).
  - reflexivity.
  - simpl. lia.
  - unfold Wait in Hw.
    change (entries w_spent !! "k"%string) with
      (Some {| uses := 1; maxUses := 1; recovery := 100; expiresAt := 102 |})
      in Hw.
    cbv beta iota in Hw.
    rewrite Wait_loop_clock_moved_by_sleep_only in Hw.
    + discriminate.
    + simpl. lia.
    + vm_compute. discriminate.
Qed.

(** Without the second hypothesis there is no such guarantee: if the clock
    stops at the very instant [expiresAt], the strict test [After] never
    succeeds and every sleep has length zero. *)
Lemma Wait_stopped_clock_never_returns fuel :
  Wait stopped fuel "k" w_at_expiry = None.
Proof.
  unfold Wait. change (entries w_at_expiry !! "k"%string) with
    (Some {| uses := 1; maxUses := 1; recovery := 100; expiresAt := 102 |}).
  cbv beta iota.
  assert (H : forall w, clock w = 102 ->
            Wait_loop stopped fuel "k"
              {| uses := 1; maxUses := 1; recovery := 100; expiresAt := 102 |}
              w = None).
  { induction fuel as [|fuel IH]; intros w Hc; [reflexivity|].
    rewrite Wait_loop_S. unfold next_now, stopped at 1. simpl expiresAt.
    rewrite Hc. simpl. apply IH.
    unfold after_denied, time_Sleep, after_read, time_Now, next_now, stopped.
    simpl. rewrite Hc. reflexivity. }
  apply H. reflexivity.
Qed.

Lemma Wait_returns_witness :
  exists fuel w',
    Wait steady fuel "k" w_spent = Some w' /\
    (forall fuel', (fuel <= fuel')%nat -> Wait steady fuel' "k" w_spent = Some w') /\
    (1 <= 1 ->
       102 < clock w' /\
       entries w' !! "k" =
         Some (rollover (clock w')
                 {| uses := 1; maxUses := 1; recovery := 100; expiresAt := 102 |})).
Proof.
  assert (H1 : forall n, 0 <= steady n) by (intros n; unfold steady; lia).
  assert (H2 : forall n, exists m, (n <= m)%nat /\ 0 < steady m).
  { intros n. exists n. unfold steady. split; lia. }
  apply (Wait_returns steady H1 H2 "k" w_spent
           {| uses := 1; maxUses := 1; recovery := 100; expiresAt := 102 |}).
  reflexivity.
Defined.

(** * Further properties of the code *)

(** ** Configuration *)

Section Configuration.

Variable elapse : nat -> Z.

Lemma store_store key e1 e2 w :
  store key e2 (store key e1 w) = store key e2 w.
Proof. unfold store. simpl. by rewrite insert_insert_eq. Qed.

(** X1.  Of two [Set] calls on one key in a row, only the second counts:
    the world is the one that the second call alone would have left, be the
    key present or absent before.  In particular, repeating a [Set] changes
    nothing. *)
Theorem SetLimit_last_write_wins key m1 r1 m2 r2 w :
  snd (SetLimit elapse key m2 r2 (snd (SetLimit elapse key m1 r1 w))) =
  snd (SetLimit elapse key m2 r2 w).
Proof.
  destruct (entries w !! key) as [e|] eqn:Hk.
  - rewrite (SetLimit_present elapse key m1 r1 w e Hk). simpl snd.
    rewrite (SetLimit_present elapse key m2 r2 _ _ (lookup_store key _ w)).
    rewrite (SetLimit_present elapse key m2 r2 w e Hk). simpl.
    apply store_store.
  - rewrite (SetLimit_absent elapse key m1 r1 w Hk). simpl snd.
    rewrite (SetLimit_present elapse key m2 r2 _ _
               (lookup_store key _ (after_read elapse w))).
    rewrite (SetLimit_absent elapse key m2 r2 w Hk). simpl.
    apply store_store.
Qed.

(** X2.  [Set] on a present key takes effect on the very next [Allow]:
    the call is granted when the window has expired or when [uses] is below
    the new [maxUses]; the current window keeps its [expiresAt], and the
    new [recovery] is used from the next rollover on. *)
Theorem Allow_after_reconfiguration key m r w e :
  entries w !! key = Some e ->
  fst (Allow elapse key (snd (SetLimit elapse key m r w))) =
    (expiresAt e <? next_now elapse w) || (uses e <? m) /\
  entries (snd (Allow elapse key (snd (SetLimit elapse key m r w)))) !! key =
    Some (if expiresAt e <? next_now elapse w then
            {| uses := 1; maxUses := m; recovery := r;
               expiresAt := next_now elapse w + r |}
          else if uses e <? m then
            {| uses := wrap_int (uses e + 1); maxUses := m; recovery := r;
               expiresAt := expiresAt e |}
          else
            {| uses := uses e; maxUses := m; recovery := r;
               expiresAt := expiresAt e |}).
Proof.
  intros Hk. rewrite (SetLimit_present elapse key m r w e Hk). simpl snd.
  rewrite (Allow_present elapse key _ _ (lookup_store key _ w)).
  change (next_now elapse (store key _ w)) with (next_now elapse w).
  simpl expiresAt. simpl uses. simpl maxUses.
  destruct (expiresAt e <? next_now elapse w).
  - split; [reflexivity | apply lookup_store].
  - destruct (uses e <? m).
    + split; [reflexivity | apply lookup_store].
    + split; [reflexivity | apply lookup_store].
Qed.

(** X3.  The first [Allow] after a [Set] that created the entry is
    granted exactly when the clock has moved since the [Set] (the window,
    created with [expiresAt = now], has then expired) or [maxUses] is
    positive. *)
Theorem first_Allow_after_creation key m r w :
  entries w !! key = None ->
  fst (Allow elapse key (snd (SetLimit elapse key m r w))) =
    (0 <? elapse (S (reads w))) || (0 <? m).
Proof.
  intros Hk. rewrite (SetLimit_absent elapse key m r w Hk). simpl snd.
  rewrite (Allow_present elapse key _ _
             (lookup_store key _ (after_read elapse w))).
  simpl expiresAt. simpl uses. simpl maxUses.
  change (next_now elapse (store key _ (after_read elapse w)))
    with (next_now elapse w + elapse (S (reads w))).
  assert (Hb : (next_now elapse w <? next_now elapse w + elapse (S (reads w))) =
               (0 <? elapse (S (reads w)))).
  { destruct (Z.ltb_spec 0 (elapse (S (reads w))));
      [apply Z.ltb_lt | apply Z.ltb_ge]; lia. }
  rewrite Hb. destruct (0 <? elapse (S (reads w))); [reflexivity|].
  destruct (0 <? m); reflexivity.
Qed.

End Configuration.

Lemma Allow_after_reconfiguration_witness :
  fst (Allow late_third "k" (snd (SetLimit late_third "k" 3 7 w_spent))) = true /\
  entries (snd (Allow late_third "k" (snd (SetLimit late_third "k" 3 7 w_spent))))
    !! "k" =
    Some {| uses := 2; maxUses := 3; recovery := 7; expiresAt := 102 |}.
Proof.
  apply (Allow_after_reconfiguration late_third "k" 3 7 w_spent
           {| uses := 1; maxUses := 1; recovery := 100; expiresAt := 102 |}).
  reflexivity.
Defined.

Lemma first_Allow_after_creation_witness :
  fst (Allow stopped "k" (snd (SetLimit stopped "k" 0 100 (NewRateLimiter 0)))) =
    false.
Proof.
  apply (first_Allow_after_creation stopped "k" 0 100 (NewRateLimiter 0)).
  reflexivity.
Defined.

(** ** Denial, and [Wait] against [Allow] *)

Section Denial.

Variable elapse : nat -> Z.

(** X4.  [Allow] returns false in one situation only: the key has an
    entry, the clock is read at [expiresAt] or before, and [uses] has
    reached [maxUses].  A denied call leaves the table as it was. *)
Theorem Allow_denies_iff key w :
  (fst (Allow elapse key w) = false <->
   exists e, entries w !! key = Some e /\
             next_now elapse w <= expiresAt e /\ maxUses e <= uses e) /\
  (fst (Allow elapse key w) = false ->
   entries (snd (Allow elapse key w)) = entries w).
Proof.
  destruct (entries w !! key) as [e|] eqn:Hk.
  - rewrite (Allow_present elapse key w e Hk).
    destruct (Z.ltb_spec (expiresAt e) (next_now elapse w)) as [Hexp|Hexp].
    + split; [split|]; simpl; try discriminate.
      intros (e' & [= <-] & Hle & _). lia.
    + destruct (Z.ltb_spec (uses e) (maxUses e)) as [Hq|Hq].
      * split; [split|]; simpl; try discriminate.
        intros (e' & [= <-] & _ & Hge). lia.
      * split; [split|]; simpl; try reflexivity.
        intros _. exists e. repeat split; [exact Hexp | exact Hq].
  - rewrite (Allow_absent elapse key w Hk).
    split; [split|]; simpl; try discriminate.
    intros (e' & He' & _). discriminate.
Qed.

(** X5.  [Wait] gets through its first iteration exactly when [Allow]
    would have granted the call, and it then leaves the world that [Allow]
    leaves; otherwise it goes to sleep. *)
Theorem Wait_first_iteration_is_Allow key w :
  Wait elapse 1 key w =
    if fst (Allow elapse key w) then Some (snd (Allow elapse key w)) else None.
Proof.
  unfold Wait. destruct (entries w !! key) as [e|] eqn:Hk.
  - rewrite Wait_loop_S, (Allow_present elapse key w e Hk).
    destruct (expiresAt e <? next_now elapse w); [reflexivity|].
    destruct (uses e <? maxUses e); reflexivity.
  - by rewrite (Allow_absent elapse key w Hk).
Qed.

End Denial.

Lemma Allow_denies_iff_witness :
  fst (Allow late_third "k" w_spent) = false /\
  entries (snd (Allow late_third "k" w_spent)) = entries w_spent.
Proof.
  destruct (Allow_denies_iff late_third "k" w_spent) as [[_ Hden] Hsame].
  assert (H : fst (Allow late_third "k" w_spent) = false).
  { apply Hden.
    exists {| uses := 1; maxUses := 1; recovery := 100; expiresAt := 102 |}.
    split; [reflexivity|]. split; [vm_compute; discriminate | simpl; lia]. }
  split; [exact H | exact (Hsame H)].
Defined.

(** ** Keys *)

Section Keys.

Variable elapse : nat -> Z.

Lemma dom_store key e w :
  dom (entries (store key e w)) = {[ key ]} ∪ dom (entries w).
Proof. unfold store. simpl. apply dom_insert_L. Qed.

Lemma dom_store_present key e w0 w :
  entries w0 = entries w -> is_Some (entries w !! key) ->
  dom (entries (store key e w0)) = dom (entries w).
Proof.
  intros Heq Hin. rewrite dom_store, Heq.
  apply elem_of_dom in Hin. apply subseteq_union_1_L.
  by apply singleton_subseteq_l.
Qed.

(** What one operation does to the entry under [key], unless it is a
    [Set] of that key: nothing, a rollover, or one more use. *)
Lemma step_entry fuel o w w' key e :
  step elapse fuel o w = Some w' ->
  entries w !! key = Some e ->
  ~ configures key o ->
  entries w' !! key = Some e \/
  (exists now, entries w' !! key = Some (rollover now e)) \/
  entries w' !! key = Some (consume e).
Proof.
  intros Hstep Hk Hnc.
  assert (HAllow : forall k, entries (snd (Allow elapse k w)) !! key = Some e \/
            (exists now, entries (snd (Allow elapse k w)) !! key =
                           Some (rollover now e)) \/
            entries (snd (Allow elapse k w)) !! key = Some (consume e)).
  { intros k. destruct (entries w !! k) as [e0|] eqn:Hk0.
    - rewrite (Allow_present elapse k w e0 Hk0).
      destruct (decide (k = key)) as [->|Hne].
      + assert (e0 = e) as -> by congruence.
        destruct (expiresAt e <? next_now elapse w).
        * right. left. eexists. apply lookup_store.
        * destruct (uses e <? maxUses e);
            [right; right; apply lookup_store | left; exact Hk].
      + left. destruct (expiresAt e0 <? next_now elapse w);
          [|destruct (uses e0 <? maxUses e0)]; simpl snd;
          rewrite ?(lookup_store_ne k key _ _ Hne); exact Hk.
    - rewrite (Allow_absent elapse k w Hk0). left. exact Hk. }
  assert (HWait : forall k, Wait elapse fuel k w = Some w' ->
            entries w' !! key = Some e \/
            (exists now, entries w' !! key = Some (rollover now e)) \/
            entries w' !! key = Some (consume e)).
  { intros k. unfold Wait. destruct (entries w !! k) as [e0|] eqn:Hk0.
    - intros Hw. apply Wait_loop_result in Hw.
      destruct (decide (k = key)) as [->|Hne].
      + assert (e0 = e) as -> by congruence.
        destruct Hw as (w0 & _ & [[_ ->] | (_ & _ & ->)]).
        * right. left. eexists. apply lookup_store.
        * right. right. apply lookup_store.
      + left. destruct Hw as (w0 & Heq & [[_ ->] | (_ & _ & ->)]);
          rewrite (lookup_store_ne k key _ _ Hne), Heq; exact Hk.
    - intros [= <-]. left. exact Hk. }
  destruct o as [k m r | k | k | k m r]; simpl in Hstep, Hnc.
  - revert Hstep. intros [= <-]. left.
    destruct (entries w !! k) as [e0|] eqn:Hk0.
    + rewrite (SetLimit_present elapse k m r w e0 Hk0). simpl snd.
      rewrite (lookup_store_ne k key _ _ Hnc). exact Hk.
    + rewrite (SetLimit_absent elapse k m r w Hk0). simpl snd.
      rewrite (lookup_store_ne k key _ _ Hnc). exact Hk.
  - revert Hstep. intros [= <-]. apply HAllow.
  - by apply (HWait k).
  - unfold WaitOrSet in Hstep. destruct (entries w !! k) as [e0|] eqn:Hk0.
    + by apply (HWait k).
    + simpl in Hstep. revert Hstep. intros [= <-]. left.
      assert (Hne : k <> key) by (intros ->; congruence).
      rewrite (lookup_store_ne k key _ _ Hne). exact Hk.
Qed.

End Keys.

(** ** Sequences of operations *)

Section Sequences.

Variable elapse : nat -> Z.

Lemma step_dom fuel o w w' :
  step elapse fuel o w = Some w' ->
  dom (entries w') =
    dom (entries w) ∪ (if creates o then {[ op_key o ]} else ∅).
Proof.
  assert (HWait : forall k, Wait elapse fuel k w = Some w' ->
            dom (entries w') = dom (entries w)).
  { intros k. unfold Wait. destruct (entries w !! k) as [e|] eqn:Hk.
    - intros Hw. apply Wait_loop_result in Hw.
      destruct Hw as (w0 & Heq & [[_ ->] | (_ & _ & ->)]);
        by apply dom_store_present.
    - by intros [= <-]. }
  destruct o as [k m r | k | k | k m r]; simpl.
  - intros [= <-]. destruct (entries w !! k) as [e|] eqn:Hk.
    + rewrite (SetLimit_present elapse k m r w e Hk). simpl snd.
      rewrite dom_store. apply union_comm_L.
    + rewrite (SetLimit_absent elapse k m r w Hk). simpl snd.
      rewrite dom_store. apply union_comm_L.
  - intros [= <-]. rewrite union_empty_r_L.
    destruct (entries w !! k) as [e|] eqn:Hk.
    + rewrite (Allow_present elapse k w e Hk).
      destruct (expiresAt e <? next_now elapse w);
        [|destruct (uses e <? maxUses e)]; simpl snd;
        try reflexivity; by apply dom_store_present.
    + by rewrite (Allow_absent elapse k w Hk).
  - intros Hw. rewrite union_empty_r_L. by apply (HWait k).
  - unfold WaitOrSet. destruct (entries w !! k) as [e|] eqn:Hk.
    + intros Hw. rewrite (HWait k Hw), (union_comm_L _ {[ k ]}).
      symmetry. apply subseteq_union_1_L. apply singleton_subseteq_l.
      apply elem_of_dom. by exists e.
    + simpl. intros [= <-]. rewrite dom_store. apply union_comm_L.
Qed.

(** X6.  No operation removes a key, and only [Set] and [WaitOrSet] add
    one: after a sequence of operations, the keys of the table are those it
    had together with the keys that were passed to a [Set] or a
    [WaitOrSet]. *)
Theorem keys_after_run fuel ops : forall w w',
  run elapse fuel ops w = Some w' ->
  dom (entries w') = dom (entries w) ∪ created ops.
Proof.
  induction ops as [|o ops IH]; intros w w' Hrun; simpl in Hrun.
  - revert Hrun. intros [= <-]. simpl. by rewrite union_empty_r_L.
  - destruct (step elapse fuel o w) as [w1|] eqn:Hstep; [|discriminate].
    rewrite (IH w1 w' Hrun), (step_dom fuel o w w1 Hstep). simpl.
    by rewrite union_assoc_L.
Qed.

Lemma step_other_key fuel o w w' k' :
  step elapse fuel o w = Some w' ->
  op_key o <> k' ->
  entries w' !! k' = entries w !! k'.
Proof.
  intros Hstep Hne.
  assert (HWait : forall k, k <> k' -> Wait elapse fuel k w = Some w' ->
            entries w' !! k' = entries w !! k').
  { intros k Hk'. unfold Wait. destruct (entries w !! k) as [e|] eqn:Hk.
    - intros Hw. apply Wait_loop_result in Hw.
      destruct Hw as (w0 & Heq & [[_ ->] | (_ & _ & ->)]);
        by rewrite (lookup_store_ne k k' _ _ Hk'), Heq.
    - by intros [= <-]. }
  destruct o as [k m r | k | k | k m r]; simpl in Hstep, Hne.
  - revert Hstep. intros [= <-]. destruct (entries w !! k) as [e|] eqn:Hk.
    + rewrite (SetLimit_present elapse k m r w e Hk). simpl snd.
      by rewrite (lookup_store_ne k k' _ _ Hne).
    + rewrite (SetLimit_absent elapse k m r w Hk). simpl snd.
      by rewrite (lookup_store_ne k k' _ _ Hne).
  - revert Hstep. intros [= <-]. destruct (entries w !! k) as [e|] eqn:Hk.
    + rewrite (Allow_present elapse k w e Hk).
      destruct (expiresAt e <? next_now elapse w);
        [|destruct (uses e <? maxUses e)]; simpl snd;
        try reflexivity; by rewrite (lookup_store_ne k k' _ _ Hne).
    + by rewrite (Allow_absent elapse k w Hk).
  - by apply (HWait k).
  - unfold WaitOrSet in Hstep. destruct (entries w !! k) as [e|] eqn:Hk.
    + by apply (HWait k).
    + simpl in Hstep. revert Hstep. intros [= <-].
      by rewrite (lookup_store_ne k k' _ _ Hne).
Qed.

(** X7.  Keys are independent: a sequence of operations none of which is
    on [k'] leaves whatever is (or is not) stored under [k'] as it was. *)
Theorem run_other_keys fuel ops k' : forall w w',
  Forall (fun o => op_key o <> k') ops ->
  run elapse fuel ops w = Some w' ->
  entries w' !! k' = entries w !! k'.
Proof.
  induction ops as [|o ops IH]; intros w w' Hne Hrun; simpl in Hrun.
  - by revert Hrun; intros [= <-].
  - inversion Hne as [|? ? Ho Hrest]; subst.
    destruct (step elapse fuel o w) as [w1|] eqn:Hstep; [|discriminate].
    rewrite (IH w1 w' Hrest Hrun). by apply (step_other_key fuel o).
Qed.

(** X8.  Only [Set] changes a configuration: after a sequence of
    operations without a [Set] of [key], the entry under [key] is still
    there with the [maxUses] and [recovery] it had; [WaitOrSet] with other
    values does not change them either. *)
Theorem configuration_is_stable fuel ops key : forall w w' e,
  Forall (fun o => ~ configures key o) ops ->
  entries w !! key = Some e ->
  run elapse fuel ops w = Some w' ->
  exists e', entries w' !! key = Some e' /\
             maxUses e' = maxUses e /\ recovery e' = recovery e.
Proof.
  induction ops as [|o ops IH]; intros w w' e Hnc Hk Hrun; simpl in Hrun.
  - revert Hrun. intros [= <-]. by exists e.
  - inversion Hnc as [|? ? Ho Hrest]; subst.
    destruct (step elapse fuel o w) as [w1|] eqn:Hstep; [|discriminate].
    destruct (step_entry elapse fuel o w w1 key e Hstep Hk Ho)
      as [H1 | [[now H1] | H1]];
      destruct (IH w1 w' _ Hrest H1 Hrun) as (e' & He' & Hm & Hr);
      exists e'; by repeat split.
Qed.

End Sequences.

Lemma keys_after_run_witness :
  dom (entries (snd (Allow steady "j" w_two))) =
    dom (entries (NewRateLimiter 0)) ∪
    created [Configure "k" 2 100; CheckAllowed "j"].
Proof.
  apply (keys_after_run steady 0 [Configure "k" 2 100; CheckAllowed "j"]
           (NewRateLimiter 0)).
  reflexivity.
Defined.

Lemma run_other_keys_witness :
  entries (snd (Allow steady "j" (snd (SetLimit steady "j" 1 5 w_two)))) !! "k" =
    entries w_two !! "k".
Proof.
  apply (run_other_keys steady 0 [Configure "j" 1 5; CheckAllowed "j"] "k" w_two).
  - repeat constructor; discriminate.
  - reflexivity.
Defined.

Lemma configuration_is_stable_witness :
  exists e',
    entries (snd (Allow steady "k" (snd (Allow steady "k" w_two)))) !! "k" =
      Some e' /\
    maxUses e' = 2 /\ recovery e' = 100.
Proof.
  apply (configuration_is_stable steady 0 [CheckAllowed "k"; CheckAllowed "k"]
           "k" w_two _
           {| uses := 0; maxUses := 2; recovery := 100; expiresAt := 1 |}).
  - repeat constructor; simpl; tauto.
  - reflexivity.
  - reflexivity.
Defined.

(** ** Grants inside one window *)

Section Grants.

Variable elapse : nat -> Z.

(** The results of any number of calls inside one window. *)
Lemma window_results key (n : nat) : forall w e,
  entries w !! key = Some e ->
  int_min <= uses e ->
  maxUses e <= int_max ->
  (forall i, (i < n)%nat -> nth_now elapse i w <= expiresAt e) ->
  fst (calls n (Allow elapse key) w) =
    replicate (Nat.min n (Z.to_nat (maxUses e - uses e))) true ++
    replicate (n - Z.to_nat (maxUses e - uses e)) false.
Proof.
  induction n as [|n IH]; intros w e Hk Hlo Hhi Hin; [reflexivity|].
  rewrite calls_S.
  assert (Hb : (expiresAt e <? next_now elapse w) = false).
  { apply Z.ltb_ge. apply (Hin 0%nat). lia. }
  pose proof (Allow_present elapse key w e Hk) as HA. rewrite Hb in HA.
  destruct (Z.ltb_spec (uses e) (maxUses e)) as [Hq|Hq].
  - assert (Hw : wrap_int (uses e + 1) = uses e + 1).
    { apply wrap_int_id. unfold is_int. lia. }
    assert (Hk' : entries (snd (Allow elapse key w)) !! key = Some (consume e)).
    { rewrite HA. apply lookup_store. }
    rewrite (IH _ (consume e) Hk').
    + rewrite HA. simpl fst. simpl uses. simpl maxUses. rewrite Hw.
      replace (Z.to_nat (maxUses e - uses e))
        with (S (Z.to_nat (maxUses e - (uses e + 1)))) by lia.
      reflexivity.
    + simpl. rewrite Hw. lia.
    + exact Hhi.
    + intros i Hi. rewrite (nth_now_after_Allow elapse key w e i Hk).
      simpl expiresAt. apply Hin. lia.
  - assert (Hk' : entries (snd (Allow elapse key w)) !! key = Some e).
    { rewrite HA. exact Hk. }
    rewrite (IH _ e Hk' Hlo Hhi).
    + rewrite HA. simpl fst.
      replace (Z.to_nat (maxUses e - uses e)) with 0%nat by lia.
      rewrite Nat.min_0_r, Nat.sub_0_r. reflexivity.
    + intros i Hi. rewrite (nth_now_after_Allow elapse key w e i Hk).
      apply Hin. lia.
Qed.

(** X9.  However many calls of [Allow] fall into one window (all of them
    read the clock at [expiresAt] or before), the calls granted are the
    first [maxUses - uses] of them and no more: a window never takes more
    than [maxUses] uses. *)
Theorem grants_in_window key (n : nat) w e :
  entries w !! key = Some e ->
  int_min <= uses e ->
  maxUses e <= int_max ->
  (forall i, (i < n)%nat -> nth_now elapse i w <= expiresAt e) ->
  fst (calls n (Allow elapse key) w) =
    replicate (Nat.min n (Z.to_nat (maxUses e - uses e))) true ++
    replicate (n - Z.to_nat (maxUses e - uses e)) false.
Proof. apply window_results. Qed.

(** X10.  The entry that [WaitOrSet] creates has its first use counted:
    of the [maxUses] calls of [Allow] that follow inside the window, all
    but the last are granted. *)
Theorem first_touch_counts_as_use key m r w fuel w1 :
  entries w !! key = None ->
  1 <= m <= int_max ->
  WaitOrSet elapse fuel key m r w = Some w1 ->
  (forall i, (i < Z.to_nat m)%nat ->
     nth_now elapse i w1 <= next_now elapse w + r) ->
  fst (calls (Z.to_nat m) (Allow elapse key) w1) =
    replicate (Z.to_nat m - 1) true ++ [false].
Proof.
  intros Hk Hm. unfold WaitOrSet. rewrite Hk. simpl. intros [= <-] Hin.
  rewrite (window_results key (Z.to_nat m) _ _
             (lookup_store key _ (after_read elapse w))).
  - simpl uses. simpl maxUses.
    replace (Z.to_nat (m - 1)) with (Z.to_nat m - 1)%nat by lia.
    replace (Nat.min (Z.to_nat m) (Z.to_nat m - 1)) with (Z.to_nat m - 1)%nat
      by lia.
    replace (Z.to_nat m - (Z.to_nat m - 1))%nat with 1%nat by lia.
    reflexivity.
  - simpl. unfold int_min. lia.
  - simpl. lia.
  - exact Hin.
Qed.

End Grants.

Lemma grants_in_window_witness :
  fst (calls 4 (Allow steady "k") (snd (SetLimit steady "k" 3 100 w_spent))) =
    [true; true; false; false].
Proof.
  apply (grants_in_window steady "k" 4
           (snd (SetLimit steady "k" 3 100 w_spent))
           {| uses := 1; maxUses := 3; recovery := 100; expiresAt := 102 |}).
  - reflexivity.
  - simpl. unfold int_min. lia.
  - simpl. unfold int_max. lia.
  - intros i Hi. destruct i as [|[|[|[|i]]]]; [| | | |lia];
      vm_compute; discriminate.
Defined.

Lemma first_touch_counts_as_use_witness :
  fst (calls 2 (Allow steady "k")
         (store "k" {| uses := 1; maxUses := 2; recovery := 100;
                       expiresAt := 101 |}
            (after_read steady (NewRateLimiter 0)))) =
    [true; false].
Proof.
  apply (first_touch_counts_as_use steady "k" 2 100 (NewRateLimiter 0) 0).
  - reflexivity.
  - unfold int_max. lia.
  - reflexivity.
  - intros i Hi. destruct i as [|[|i]]; [| |simpl in Hi; lia];
      vm_compute; discriminate.
Defined.

(** ** More on [Wait] *)

Section Waiting.

Variable elapse : nat -> Z.

(** X11.  Whatever the clock does, a [Wait] that returns has counted one
    use: either it read the clock strictly after [expiresAt] and opened a
    new window at that instant, or it read it at [expiresAt] or before and
    took a use that was left.  It never returns on a spent quota inside the
    window. *)
Theorem Wait_consumes_one_use fuel key w w' e :
  entries w !! key = Some e ->
  Wait elapse fuel key w = Some w' ->
  (expiresAt e < clock w' /\
   entries w' !! key = Some (rollover (clock w') e)) \/
  (clock w' <= expiresAt e /\ uses e < maxUses e /\
   entries w' !! key = Some (consume e)).
Proof.
  intros Hk. unfold Wait. rewrite Hk. intros Hw.
  apply Wait_loop_result in Hw.
  destruct Hw as (w0 & _ & [[Hlt ->] | (Hle & Hq & ->)]).
  - left. split; [exact Hlt | apply lookup_store].
  - right. split; [exact Hle|]. split; [exact Hq | apply lookup_store].
Qed.

(** The instant at which a sleep ends, when the wait fits a Duration. *)
Lemma clock_after_denied_exact e w :
  expiresAt e - nth_now elapse 1 w <= time.maxDuration ->
  clock (after_denied elapse e w) =
    Z.max (expiresAt e) (nth_now elapse 1 w).
Proof.
  unfold after_denied, time_Sleep. simpl.
  set (now2 := next_now elapse (after_read elapse w)).
  unfold time.Sub, time.maxDuration, time.minDuration. intros Hfit.
  destruct (2 ^ 63 - 1 <? expiresAt e - now2) eqn:Hhi.
  - apply Z.ltb_lt in Hhi. lia.
  - destruct (expiresAt e - now2 <? - 2 ^ 63) eqn:Hlo.
    + apply Z.ltb_lt in Hlo. lia.
    + lia.
Qed.

(** A sleep never ends after [expiresAt], unless [expiresAt] had been
    passed before it began. *)
Lemma clock_after_denied_le e w :
  clock (after_denied elapse e w) <=
    Z.max (expiresAt e) (nth_now elapse 1 w).
Proof.
  unfold after_denied, time_Sleep. simpl.
  set (now2 := next_now elapse (after_read elapse w)).
  unfold time.Sub, time.maxDuration, time.minDuration.
  destruct (2 ^ 63 - 1 <? expiresAt e - now2) eqn:Hhi.
  - apply Z.ltb_lt in Hhi. lia.
  - destruct (expiresAt e - now2 <? - 2 ^ 63) eqn:Hlo.
    + apply Z.ltb_lt in Hlo. lia.
    + lia.
Qed.

(** X12.  With the quota spent and the window still open, [Wait] sleeps
    once, until [expiresAt] (or not at all, if [expiresAt] was passed
    between its two readings of the clock), and returns on its second
    iteration as soon as the clock has moved: at that instant it opens the
    new window. *)
Theorem Wait_wakes_at_expiry key w e :
  entries w !! key = Some e ->
  maxUses e <= uses e ->
  next_now elapse w <= expiresAt e ->
  expiresAt e - nth_now elapse 1 w <= time.maxDuration ->
  0 < elapse (S (S (reads w))) ->
  Wait elapse 1 key w = None /\
  exists w',
    Wait elapse 2 key w = Some w' /\
    clock w' =
      Z.max (expiresAt e) (nth_now elapse 1 w) + elapse (S (S (reads w))) /\
    entries w' !! key = Some (rollover (clock w') e).
Proof.
  intros Hk Hspent Hopen Hfit Htick. unfold Wait. rewrite Hk.
  assert (Hb : (expiresAt e <? next_now elapse w) = false)
    by (apply Z.ltb_ge; lia).
  assert (Hq : (uses e <? maxUses e) = false) by (apply Z.ltb_ge; lia).
  split.
  - rewrite Wait_loop_S, Hb, Hq. reflexivity.
  - rewrite Wait_loop_S, Hb, Hq, Wait_loop_S.
    assert (Hnow : next_now elapse (after_denied elapse e w) =
              Z.max (expiresAt e) (nth_now elapse 1 w) +
              elapse (S (S (reads w)))).
    { unfold next_now at 1. rewrite (clock_after_denied_exact e w Hfit).
      reflexivity. }
    assert (Hb' : (expiresAt e <? next_now elapse (after_denied elapse e w))
                  = true) by (apply Z.ltb_lt; lia).
    rewrite Hb'. eexists. split; [reflexivity|].
    split; [exact Hnow | apply lookup_store].
Qed.

(** X13.  [Wait] on a spent quota cannot return while the clock stays at
    or before [expiresAt]: if the clock has stopped there, no number of
    iterations is enough (every sleep is cut at [expiresAt], and the test
    for expiry is strict). *)
Theorem Wait_spins_on_stopped_clock key e : forall fuel w,
  entries w !! key = Some e ->
  maxUses e <= uses e ->
  clock w <= expiresAt e ->
  (forall n, (reads w <= n)%nat -> elapse n = 0) ->
  Wait elapse fuel key w = None.
Proof.
  intros fuel w Hk Hspent. unfold Wait. rewrite Hk. clear Hk.
  revert w. induction fuel as [|fuel IH]; intros w Hc Hstop; [reflexivity|].
  assert (H0 : elapse (reads w) = 0) by (apply Hstop; lia).
  assert (H1 : elapse (S (reads w)) = 0) by (apply Hstop; lia).
  assert (Hb : (expiresAt e <? next_now elapse w) = false).
  { apply Z.ltb_ge. unfold next_now. lia. }
  assert (Hq : (uses e <? maxUses e) = false) by (apply Z.ltb_ge; lia).
  assert (Hn2 : nth_now elapse 1 w = clock w).
  { change (nth_now elapse 1 w)
      with (clock w + elapse (reads w) + elapse (S (reads w))). lia. }
  rewrite Wait_loop_S, Hb, Hq. apply IH.
  - pose proof (clock_after_denied_le e w) as Hle. rewrite Hn2 in Hle. lia.
  - intros n Hn. apply Hstop. rewrite reads_after_denied in Hn. lia.
Qed.

(** X14.  Whatever [maxUses] (within [int]) the operations are passed,
    [uses] never becomes negative and never wraps around: entries with
    [uses >= 0] and [maxUses <= int_max] stay so along any sequence of
    operations. *)
Theorem entries_stay_typed fuel ops : forall w w',
  all_entries entry_typed w ->
  Forall int_op ops ->
  run elapse fuel ops w = Some w' ->
  all_entries entry_typed w'.
Proof.
  induction ops as [|o ops IH]; intros w w' Hall Hint Hrun; simpl in Hrun.
  - revert Hrun. by intros [= <-].
  - inversion Hint as [|? ? Ho Hrest]; subst.
    destruct (step elapse fuel o w) as [w1|] eqn:Hstep; [|discriminate].
    apply (IH w1 w'); [| exact Hrest | exact Hrun].
    by apply (step_keeps_entry_typed elapse fuel o w w1).
Qed.

End Waiting.

Lemma Wait_consumes_one_use_witness :
  exists w',
    Wait steady 2 "k" w_spent = Some w' /\
    ((102 < clock w' /\
      entries w' !! "k" =
        Some (rollover (clock w')
                {| uses := 1; maxUses := 1; recovery := 100;
                   expiresAt := 102 |})) \/
     (clock w' <= 102 /\ 1 < 1 /\
      entries w' !! "k" =
        Some (consume {| uses := 1; maxUses := 1; recovery := 100;
                         expiresAt := 102 |}))).
Proof.
  eexists. split; [reflexivity|].
  apply (Wait_consumes_one_use steady 2 "k" w_spent _
           {| uses := 1; maxUses := 1; recovery := 100; expiresAt := 102 |});
    reflexivity.
Defined.

Lemma Wait_wakes_at_expiry_witness :
  Wait steady 1 "k" w_spent = None /\
  exists w',
    Wait steady 2 "k" w_spent = Some w' /\
    clock w' = 103 /\
    entries w' !! "k" =
      Some (rollover (clock w')
              {| uses := 1; maxUses := 1; recovery := 100; expiresAt := 102 |}).
Proof.
  apply (Wait_wakes_at_expiry steady "k" w_spent
           {| uses := 1; maxUses := 1; recovery := 100; expiresAt := 102 |}).
  - reflexivity.
  - simpl. lia.
  - vm_compute. discriminate.
  - vm_compute. discriminate.
  - unfold steady. lia.
Defined.

Lemma Wait_spins_on_stopped_clock_witness :
  Wait stopped 7 "k" w_at_expiry = None.
Proof.
  apply (Wait_spins_on_stopped_clock stopped "k"
           {| uses := 1; maxUses := 1; recovery := 100; expiresAt := 102 |}
           7 w_at_expiry).
  - reflexivity.
  - simpl. lia.
  - simpl. lia.
  - intros n _. reflexivity.
Defined.

Lemma entries_stay_typed_witness :
  all_entries entry_typed (snd (Allow steady "k" w_zero)).
Proof.
  apply (entries_stay_typed steady 0
           [Configure "k" 0 100; CheckAllowed "k"] (NewRateLimiter 0)).
  - intros key e Hk. vm_compute in Hk. discriminate.
  - repeat constructor. simpl. unfold int_max. lia.
  - reflexivity.
Defined.

(** ** Across windows *)

Section Across.

Variable elapse : nat -> Z.

Lemma calls_S_snd {A} (c : M A) n w :
  snd (calls (S n) c w) = snd (calls n c (snd (c w))).
Proof.
  simpl. unfold bind. destruct (c w) as [a w1]. simpl.
  destruct (calls n c w1) as [l w2]. reflexivity.
Qed.

Lemma calls_add_fst {A} (c : M A) n m : forall w,
  fst (calls (n + m) c w) =
    fst (calls n c w) ++ fst (calls m c (snd (calls n c w))).
Proof.
  induction n as [|n IH]; intros w; [reflexivity|].
  change (S n + m)%nat with (S (n + m)).
  rewrite !calls_S, calls_S_snd, IH. reflexivity.
Qed.

(** The entry and the clock after [k] grants inside a window. *)
Lemma state_after_grants key (k : nat) : forall w e,
  entries w !! key = Some e ->
  int_min <= uses e ->
  maxUses e <= int_max ->
  Z.of_nat k <= maxUses e - uses e ->
  (forall i, (i < k)%nat -> nth_now elapse i w <= expiresAt e) ->
  entries (snd (calls k (Allow elapse key) w)) !! key =
    Some {| uses := uses e + Z.of_nat k; maxUses := maxUses e;
            recovery := recovery e; expiresAt := expiresAt e |} /\
  forall i, nth_now elapse i (snd (calls k (Allow elapse key) w)) =
            nth_now elapse (k + i) w.
Proof.
  induction k as [|k IH]; intros w e Hk Hlo Hhi Hleft Hin.
  - simpl. split; [|reflexivity].
    rewrite Hk, Z.add_0_r. by destruct e.
  - rewrite calls_S_snd.
    assert (Hb : (expiresAt e <? next_now elapse w) = false).
    { apply Z.ltb_ge. apply (Hin 0%nat). lia. }
    assert (Hq : (uses e <? maxUses e) = true) by (apply Z.ltb_lt; lia).
    assert (Hw : wrap_int (uses e + 1) = uses e + 1).
    { apply wrap_int_id. unfold is_int. lia. }
    pose proof (Allow_present elapse key w e Hk) as HA. rewrite Hb, Hq in HA.
    assert (Hk' : entries (snd (Allow elapse key w)) !! key = Some (consume e)).
    { rewrite HA. apply lookup_store. }
    destruct (IH _ (consume e) Hk') as [IH1 IH2].
    + simpl. rewrite Hw. lia.
    + exact Hhi.
    + simpl. rewrite Hw. lia.
    + intros i Hi. rewrite (nth_now_after_Allow elapse key w e i Hk).
      simpl expiresAt. apply Hin. lia.
    + split.
      * rewrite IH1. simpl. rewrite Hw. do 2 f_equal. lia.
      * intros i. rewrite IH2.
        apply (nth_now_after_Allow elapse key w e (k + i) Hk).
Qed.

(** X15.  The windows are fixed, not sliding: when [maxUses = N] calls
    spend a window and the next call reads the clock just after
    [expiresAt], that call and the [N - 1] after it are granted as well,
    so [2 N] uses can be granted within an interval as short as the clock
    allows. *)
Theorem burst_across_windows key w e :
  entries w !! key = Some e ->
  uses e = 0 ->
  1 <= maxUses e <= int_max ->
  (forall i, (i < Z.to_nat (maxUses e))%nat ->
     nth_now elapse i w <= expiresAt e) ->
  expiresAt e < nth_now elapse (Z.to_nat (maxUses e)) w ->
  (forall i, (Z.to_nat (maxUses e) < i < Z.to_nat (maxUses e) +
                                          Z.to_nat (maxUses e))%nat ->
     nth_now elapse i w <=
       nth_now elapse (Z.to_nat (maxUses e)) w + recovery e) ->
  fst (calls (Z.to_nat (maxUses e) + Z.to_nat (maxUses e))
         (Allow elapse key) w) =
    replicate (Z.to_nat (maxUses e) + Z.to_nat (maxUses e)) true.
Proof.
  intros Hk Hu HN Hin1 Hexp Hin2.
  set (N := Z.to_nat (maxUses e)) in *.
  assert (Hlo : int_min <= uses e) by (unfold int_min; lia).
  rewrite calls_add_fst, replicate_add. f_equal.
  - rewrite (window_results elapse key N w e Hk Hlo (proj2 HN) Hin1).
    replace (Z.to_nat (maxUses e - uses e)) with N by lia.
    rewrite Nat.min_id, Nat.sub_diag. apply app_nil_r.
  - destruct (state_after_grants key N w e Hk Hlo (proj2 HN)) as [Hk1 Hnow];
      [lia | exact Hin1 |].
    set (w1 := snd (calls N (Allow elapse key) w)) in *.
    set (e1 := {| uses := uses e + Z.of_nat N; maxUses := maxUses e;
                  recovery := recovery e; expiresAt := expiresAt e |}) in *.
    destruct N as [|n] eqn:HNn; [lia|].
    rewrite calls_S.
    assert (Hb : (expiresAt e1 <? next_now elapse w1) = true).
    { apply Z.ltb_lt. change (next_now elapse w1) with (nth_now elapse 0 w1).
      rewrite Hnow, Nat.add_0_r. exact Hexp. }
    pose proof (Allow_present elapse key w1 e1 Hk1) as HA. rewrite Hb in HA.
    assert (Hk2 : entries (snd (Allow elapse key w1)) !! key =
                  Some (rollover (next_now elapse w1) e1)).
    { rewrite HA. apply lookup_store. }
    rewrite (window_results elapse key n _ _ Hk2).
    + rewrite HA. simpl fst. simpl uses. simpl maxUses.
      replace (Z.to_nat (maxUses e - 1)) with n by lia.
      rewrite Nat.min_id, Nat.sub_diag, app_nil_r. reflexivity.
    + simpl. unfold int_min. lia.
    + simpl. lia.
    + intros i Hi. rewrite (nth_now_after_Allow elapse key w1 e1 i Hk1).
      simpl expiresAt. unfold time.Add.
      change (next_now elapse w1) with (nth_now elapse 0 w1).
      rewrite !Hnow, Nat.add_0_r. apply Hin2. lia.
Qed.

(** X16.  A [recovery] of zero or less switches the limit off once the
    window has expired: each call that reads the clock later than the one
    before finds the window expired again and is granted, whatever
    [maxUses] is. *)
Theorem nonpositive_recovery_always_grants key (n : nat) : forall w e,
  entries w !! key = Some e ->
  recovery e <= 0 ->
  expiresAt e <= clock w ->
  (forall i, (i < n)%nat -> 0 < elapse (reads w + i)) ->
  fst (calls n (Allow elapse key) w) = replicate n true.
Proof.
  induction n as [|n IH]; intros w e Hk Hr Hexp Htick; [reflexivity|].
  rewrite calls_S.
  assert (Hb : (expiresAt e <? next_now elapse w) = true).
  { apply Z.ltb_lt. unfold next_now. specialize (Htick 0%nat ltac:(lia)).
    rewrite Nat.add_0_r in Htick. lia. }
  pose proof (Allow_present elapse key w e Hk) as HA. rewrite Hb in HA.
  assert (Hk' : entries (snd (Allow elapse key w)) !! key =
                Some (rollover (next_now elapse w) e)).
  { rewrite HA. apply lookup_store. }
  rewrite (IH _ _ Hk').
  - rewrite HA. reflexivity.
  - exact Hr.
  - rewrite HA. simpl. unfold time.Add. lia.
  - intros i Hi. rewrite HA. simpl reads.
    replace (S (reads w) + i)%nat with (reads w + S i)%nat by lia.
    apply Htick. lia.
Qed.

End Across.

Lemma burst_across_windows_witness :
  fst (calls 4 (Allow burst_clock "k")
         (snd (SetLimit burst_clock "k" 2 100 (NewRateLimiter 0)))) =
    [true; true; true; true].
Proof.
  apply (burst_across_windows burst_clock "k"
           (snd (SetLimit burst_clock "k" 2 100 (NewRateLimiter 0)))
           {| uses := 0; maxUses := 2; recovery := 100; expiresAt := 0 |}).
  - reflexivity.
  - reflexivity.
  - simpl. unfold int_max. lia.
  - intros i Hi. simpl in Hi. destruct i as [|[|i]]; [| |lia];
      vm_compute; discriminate.
  - vm_compute. reflexivity.
  - intros i Hi. simpl in Hi. destruct i as [|[|[|[|i]]]]; try lia.
    vm_compute. discriminate.
Defined.

Lemma nonpositive_recovery_always_grants_witness :
  fst (calls 3 (Allow steady "k")
         (snd (SetLimit steady "k" 1 0 (NewRateLimiter 0)))) =
    [true; true; true].
Proof.
  apply (nonpositive_recovery_always_grants steady "k" 3
           (snd (SetLimit steady "k" 1 0 (NewRateLimiter 0)))
           {| uses := 0; maxUses := 1; recovery := 0; expiresAt := 1 |}).
  - reflexivity.
  - simpl. lia.
  - vm_compute. discriminate.
  - intros i _. unfold steady. lia.
Defined.

(** ** Two first touches *)

Section FirstTouch.

Variable elapse : nat -> Z.

(** X17.  Of two [WaitOrSet] calls on a fresh key with [maxUses = 1], the
    first creates the entry and the second, whatever values it passes, can
    only return strictly after the window of the first has ended; it then
    holds the single use of a new window under the configuration of the
    first call. *)
Theorem second_first_touch_waits key r m' r' w fuel fuel' w1 w2 :
  entries w !! key = None ->
  WaitOrSet elapse fuel key 1 r w = Some w1 ->
  WaitOrSet elapse fuel' key m' r' w1 = Some w2 ->
  next_now elapse w + r < clock w2 /\
  entries w2 !! key =
    Some {| uses := 1; maxUses := 1; recovery := r;
            expiresAt := clock w2 + r |}.
Proof.
  intros Hk. unfold WaitOrSet at 1. rewrite Hk. simpl. intros [= <-].
  unfold WaitOrSet, Wait.
  rewrite (lookup_store key _ (after_read elapse w)). intros Hw.
  apply Wait_loop_result in Hw.
  destruct Hw as (w0 & _ & [[Hlt ->] | (_ & Hq & _)]).
  - split; [exact Hlt | apply lookup_store].
  - simpl in Hq. lia.
Qed.

End FirstTouch.

Lemma second_first_touch_waits_witness :
  exists w2,
    WaitOrSet steady 2 "k" 5 7
      (store "k" {| uses := 1; maxUses := 1; recovery := 100;
                    expiresAt := 101 |}
         (after_read steady (NewRateLimiter 0))) = Some w2 /\
    1 + 100 < clock w2 /\
    entries w2 !! "k" =
      Some {| uses := 1; maxUses := 1; recovery := 100;
              expiresAt := clock w2 + 100 |}.
Proof.
  eexists. split; [reflexivity|].
  apply (second_first_touch_waits steady "k" 100 5 7 (NewRateLimiter 0) 0 2
           (store "k" {| uses := 1; maxUses := 1; recovery := 100;
                         expiresAt := 101 |}
              (after_read steady (NewRateLimiter 0))));
    reflexivity.
Defined.
